(** * A shallow embedding of the [semver up] command of yarn-plugin-semver-up

    The model follows [src/unnamed/part_004] (the current plugin source):
    [parseConfigFile], [getRulesWithPackages], [findUpdateCandidates],
    [getInstalledVersion], [extractVersionFromRange], [getUpdateType],
    [applyUpdates], [writeChangeset] and the pipeline of [execute].

    Yarn's [Map]s iterate in insertion order and [Map.prototype.set] on an
    existing key keeps its position, so every JS [Map] is modelled as an
    association list with [map_set] below.  The collaborators that live
    outside this repository (micromatch, semver's [minVersion] and [diff],
    the registry resolver [suggestUtils.fetchDescriptorFrom]) are parameters
    of the section [Semverup]. *)

From Stdlib Require Import String Ascii List ZArith Bool Lia.
Import ListNotations.
Open Scope string_scope.

(** ** JS values *)

(** A JS [Map] in insertion order. *)
Definition JsMap (K V : Type) := list (K * V).

Section JsMapOps.
Context {K V : Type} (keq : K -> K -> bool).

(** [m.get(k)] *)
Fixpoint map_get (k : K) (m : JsMap K V) : option V :=
  match m with
  | [] => None
  | (k', v) :: m' => if keq k k' then Some v else map_get k m'
  end.

(** [m.has(k)] *)
Definition map_has (k : K) (m : JsMap K V) : bool :=
  match map_get k m with Some _ => true | None => false end.

(** [m.set(k, v)]: an existing key keeps its position, a new key goes last. *)
Fixpoint map_set (k : K) (v : V) (m : JsMap K V) : JsMap K V :=
  match m with
  | [] => [(k, v)]
  | (k', v') :: m' =>
      if keq k k' then (k', v) :: m' else (k', v') :: map_set k v m'
  end.

(** [new Map(entries)] *)
Definition map_of_entries (es : list (K * V)) : JsMap K V :=
  fold_left (fun m '(k, v) => map_set k v m) es [].
End JsMapOps.

(** A JS [Set] in insertion order; [s.add(x)] does nothing on a member. *)
Definition set_add {A} (eqb : A -> A -> bool) (x : A) (s : list A) : list A :=
  if existsb (eqb x) s then s else (s ++ [x])%list.

(** The two caps have type [number | false]. *)
Inductive Cap := CapFalse | CapNum (n : Z).

(** JS truthiness of a [number | false]: [false] and [0] are falsy. *)
Definition cap_truthy (c : Cap) : bool :=
  match c with
  | CapFalse => false
  | CapNum n => negb (Z.eqb n 0)
  end.

(** [cap && count >= cap], the guard of both [break]s in [applyUpdates]. *)
Definition cap_reached (c : Cap) (count : Z) : bool :=
  cap_truthy c && match c with CapFalse => false | CapNum n => Z.leb n count end.

(** JS truthiness of a string. *)
Definition str_truthy (s : string) : bool := negb (String.eqb s "").

(** ** Yarn's structures *)

(** An [Ident]; its [identHash] is an injective hash, so the ident itself
    serves as [IdentHash]. *)
Record Ident := mkIdent { scope : option string; name : string }.
Definition IdentHash := Ident.

Definition opt_str_eqb (a b : option string) : bool :=
  match a, b with
  | Some x, Some y => String.eqb x y
  | None, None => true
  | _, _ => false
  end.

Definition ident_eqb (a b : Ident) : bool :=
  opt_str_eqb (scope a) (scope b) && String.eqb (name a) (name b).

(** A [Descriptor]: an ident bound to a range.  Its [descriptorHash] is an
    injective hash of both, so the descriptor itself serves as hash. *)
Record Descriptor := mkDescriptor { descIdent : Ident; range : string }.
Definition DescriptorHash := Descriptor.

Definition descriptor_eqb (a b : Descriptor) : bool :=
  ident_eqb (descIdent a) (descIdent b) && String.eqb (range a) (range b).

(** [structUtils.convertToIdent] *)
Definition convertToIdent (d : Descriptor) : Ident := descIdent d.

(** [structUtils.stringifyIdent] *)
Definition stringifyIdent (i : Ident) : string :=
  match scope i with
  | Some s => "@" ++ s ++ "/" ++ name i
  | None => name i
  end.

(** [structUtils.parseRange], after Yarn's [RANGE_REGEX]: an optional
    protocol group, a source-or-selector group, an optional [#selector]
    group and an optional [::params] group.  The protocol is the text up to the first [:] when no [#] precedes it;
    the rest is cut at the first [::] (params); before that, a [#] separates
    a source from the selector. *)
Record ParsedRange := mkParsedRange {
  protocol : option string;
  source : option string;
  selector : string;
  params : option string }.

(** Splits at the first [:], provided no [#] comes before it. *)
Fixpoint split_protocol (s : string) : option (string * string) :=
  match s with
  | EmptyString => None
  | String c s' =>
      if Ascii.eqb c ":"%char then Some (EmptyString, s')
      else if Ascii.eqb c "#"%char then None
      else match split_protocol s' with
           | Some (p, r) => Some (String c p, r)
           | None => None
           end
  end.

(** Splits at the first [::]. *)
Fixpoint split_params (s : string) : string * option string :=
  match s with
  | String ":"%char (String ":"%char r) => (EmptyString, Some r)
  | EmptyString => (EmptyString, None)
  | String c s' => let '(b, p) := split_params s' in (String c b, p)
  end.

(** Splits at the first [#]. *)
Fixpoint split_hash (s : string) : string * option string :=
  match s with
  | EmptyString => (EmptyString, None)
  | String c s' =>
      if Ascii.eqb c "#"%char then (EmptyString, Some s')
      else let '(b, a) := split_hash s' in (String c b, a)
  end.

Definition parseRange (r : string) : ParsedRange :=
  let '(proto, rest) :=
    match split_protocol r with
    | Some (p, rest) => (Some (p ++ ":"), rest)
    | None => (None, r)
    end in
  let '(main, prms) := split_params rest in
  match split_hash main with
  | (src, Some sel) => mkParsedRange proto (Some src) sel prms
  | (sel, None) => mkParsedRange proto None sel prms
  end.

(** ** Configuration ([RuleConfig], [Config], [parseConfigFile]) *)

Record RuleConfig := mkRuleConfig {
  maxPackageUpdates : Cap;
  preserveSemVerRange : bool }.

Definition RuleGlob := string.

Record Config := mkConfig {
  rules : list (RuleGlob * RuleConfig);
  maxRulesApplied : Cap;
  skipManifestOnlyChanges : bool }.

(** [ruleConfigDefaults] *)
Definition ruleConfigDefaults : RuleConfig :=
  mkRuleConfig CapFalse true.

(** A [Partial<RuleConfig>] read from the config file: [None] is an absent
    field. *)
Record PartialRuleConfig := mkPartialRuleConfig {
  p_maxPackageUpdates : option Cap;
  p_preserveSemVerRange : option bool }.

(** The object returned by [miscUtils.dynamicRequire] on the config file;
    [None] fields are absent (or [null]), which [??] replaces. *)
Record ConfigFile := mkConfigFile {
  file_rules : option (list (RuleGlob * PartialRuleConfig));
  file_maxRulesApplied : option Cap;
  file_skipManifestOnlyChanges : option bool }.

(** The command line options of [SemverUpCommand]. *)
Record Command := mkCommand {
  configFilename : string;
  changesetFilename : option string;
  dryRun : bool;
  cmdPreserveSemVerRange : bool;
  ruleGlobs : list string }.

(** [{ ...ruleConfigDefaults, preserveSemVerRange: this.preserveSemVerRange, ...rule }] *)
Definition merge_rule (cmd : Command) (rule : PartialRuleConfig) : RuleConfig :=
  mkRuleConfig
    (match p_maxPackageUpdates rule with
     | Some c => c | None => maxPackageUpdates ruleConfigDefaults end)
    (match p_preserveSemVerRange rule with
     | Some b => b | None => cmdPreserveSemVerRange cmd end).

(** The value of [configFromFile] once the [try]/[catch] around
    [dynamicRequire] is done: [None] stands for a require that threw. *)
Definition load_config_file (required : option ConfigFile) : ConfigFile :=
  match required with
  | Some f => f
  | None =>
      mkConfigFile (Some [("*", mkPartialRuleConfig None None)]) None None
  end.

(** [parseConfigFile] *)
Definition parseConfigFile (cmd : Command) (required : option ConfigFile)
  : Config :=
  let configFromFile := load_config_file required in
  let rulesFromFile :=
    match file_rules configFromFile with Some rs => rs | None => [] end in
  let config :=
    mkConfig
      (map (fun '(ruleGlob, rule) => (ruleGlob, merge_rule cmd rule))
           rulesFromFile)
      (match file_maxRulesApplied configFromFile with
       | Some c => c | None => CapNum 1 end)
      (match file_skipManifestOnlyChanges configFromFile with
       | Some b => b | None => false end) in
  match ruleGlobs cmd with
  | [] => config
  | _ :: _ =>
      mkConfig
        (map (fun ruleGlob =>
                (ruleGlob,
                 mkRuleConfig (maxPackageUpdates ruleConfigDefaults)
                              (cmdPreserveSemVerRange cmd)))
             (ruleGlobs cmd))
        CapFalse
        (skipManifestOnlyChanges config)
  end.

(** ** Manifest, workspace and project *)

Record Manifest := mkManifest {
  dependencies : JsMap IdentHash Descriptor;
  devDependencies : JsMap IdentHash Descriptor }.

(** The two scopes [applyUpdates] walks: ['dependencies', 'devDependencies']. *)
Inductive ScopeKey := ScopeDependencies | ScopeDevDependencies.

(** [manifest.getForScope(scopeKey)] *)
Definition getForScope (sk : ScopeKey) (m : Manifest) : JsMap IdentHash Descriptor :=
  match sk with
  | ScopeDependencies => dependencies m
  | ScopeDevDependencies => devDependencies m
  end.

Definition setForScope (sk : ScopeKey) (m : Manifest) (s : JsMap IdentHash Descriptor)
  : Manifest :=
  match sk with
  | ScopeDependencies => mkManifest s (devDependencies m)
  | ScopeDevDependencies => mkManifest (dependencies m) s
  end.

(** A stored package; Yarn's [Package.version] is [string | null]. *)
Record Package := mkPackage { version : option string }.

Record Project := mkProject {
  storedResolutions : JsMap DescriptorHash string;
  storedPackages : JsMap string Package }.

(** The top-level workspace: its manifest (mutated by [applyUpdates]), the
    [workspace.dependencies] map Yarn computed at setup (read only here) and
    its project. *)
Record Workspace := mkWorkspace {
  manifest : Manifest;
  wsDependencies : JsMap IdentHash Descriptor;
  project : Project }.

(** [semver]'s [ReleaseType] *)
Inductive ReleaseType :=
  | major | premajor | minor | preminor | patch | prepatch | prerelease.

Record ChangesetRecord := mkChangesetRecord {
  fromRange : string;
  toRange : string;
  fromVersion : option string;
  toVersion : string;
  updateType : option ReleaseType }.

(** [Changeset = Map<string, ChangesetRecord>] *)
Definition Changeset := JsMap string ChangesetRecord.

(** [RulesWithPackages]: one bucket per rule, a [Set<IdentHash>] each. *)
Definition RulesWithPackages :=
  list (RuleGlob * (RuleConfig * list IdentHash)).

(** [RulesWithUpdates = Map<RuleGlob, Map<IdentHash, Descriptor>>] *)
Definition RulesWithUpdates := JsMap RuleGlob (JsMap IdentHash Descriptor).

(** One [report.reportInfo] line of [applyUpdates]:
    [[${ruleGlob}] ${stringifiedIdent}: ${fromRange} -> ${toRange}]. *)
Record InfoLine := mkInfoLine {
  infoGlob : RuleGlob;
  infoIdent : string;
  infoFrom : string;
  infoTo : string }.

Definition render_info (l : InfoLine) : string :=
  "[" ++ infoGlob l ++ "] " ++ infoIdent l ++ ": " ++ infoFrom l ++ " -> "
  ++ infoTo l.

(** What [applyUpdates] changes as it runs: the changeset it builds, the
    manifest it mutates, the descriptors passed to
    [workspace.project.forgetResolution] and the info lines it reports. *)
Record ApplyState := mkApplyState {
  changeset : Changeset;
  stManifest : Manifest;
  forgotten : list Descriptor;
  infos : list InfoLine }.

(** The control flow of a [for] body: [break] or carry on. *)
Inductive Flow (A : Type) := Break (a : A) | Continue (a : A).
Arguments Break {A} a.
Arguments Continue {A} a.

(** ** The command *)

Section Semverup.

(** [micromatch([s], glob).length > 0] *)
Variable micromatch : string -> RuleGlob -> bool.
(** [semverMinVersion(range, { loose: true })], [None] for [null]. *)
Variable semverMinVersion : string -> option string.
(** [semverDiff(from, to, { loose: true })], [None] for [null] or a throw. *)
Variable semverDiff : string -> string -> option ReleaseType.
(** [configuration.get('defaultProtocol')] *)
Variable defaultProtocol : string.
(** [suggestUtils.fetchDescriptorFrom(ident, range, ...)] for the project,
    workspace and cache of the run. *)
Variable fetchDescriptorFrom : Ident -> string -> option Descriptor.

(** *** [getRulesWithPackages] *)

(** [ruleBuckets.find(...)] followed by [bucket[1].packages.add(identHash)]:
    the first bucket whose glob matches gets the package. *)
Fixpoint add_to_first_match (s : string) (identHash : IdentHash)
    (buckets : RulesWithPackages) : RulesWithPackages :=
  match buckets with
  | [] => []
  | (ruleGlob, (rule, packages)) :: rest =>
      if micromatch s ruleGlob
      then (ruleGlob, (rule, set_add ident_eqb identHash packages)) :: rest
      else (ruleGlob, (rule, packages)) :: add_to_first_match s identHash rest
  end.

Definition allDependencies (m : Manifest) : list (IdentHash * Descriptor) :=
  dependencies m ++ devDependencies m.

Definition getRulesWithPackages (config : Config) (m : Manifest)
  : RulesWithPackages :=
  let ruleBuckets :=
    map (fun '(ruleGlob, rule) => (ruleGlob, (rule, []))) (rules config) in
  fold_left
    (fun buckets '(identHash, descriptor) =>
       add_to_first_match (stringifyIdent (descIdent descriptor)) identHash
         buckets)
    (allDependencies m) ruleBuckets.

(** *** [findUpdateCandidates] *)

(** [isSemverProtocol] of the old descriptor's range. *)
Definition isSemverProtocol (r : string) : bool :=
  let oldRange := parseRange r in
  (match protocol oldRange with None => true | Some _ => false end
   && String.eqb defaultProtocol "npm:")
  || opt_str_eqb (protocol oldRange) (Some "npm:").

(** The inner [for (const pkg of packages)] loop; besides the updates it
    returns the arguments of every resolver call, in call order. *)
Fixpoint find_updates (rule : RuleConfig)
    (descriptors : JsMap IdentHash Descriptor) (packages : list IdentHash)
    (updates : JsMap IdentHash Descriptor) (queries : list (Ident * string))
    : JsMap IdentHash Descriptor * list (Ident * string) :=
  match packages with
  | [] => (updates, queries)
  | pkg :: rest =>
      match map_get ident_eqb pkg descriptors with
      | None => find_updates rule descriptors rest updates queries
      | Some oldDescriptor =>
          if negb (isSemverProtocol (range oldDescriptor))
          then find_updates rule descriptors rest updates queries
          else
            let ident := convertToIdent oldDescriptor in
            let q := if preserveSemVerRange rule
                     then range oldDescriptor else "latest" in
            let queries' := (queries ++ [(ident, q)])%list in
            match fetchDescriptorFrom ident q with
            | Some newDescriptor =>
                if negb (String.eqb (range oldDescriptor) (range newDescriptor))
                then find_updates rule descriptors rest
                       (map_set ident_eqb ident newDescriptor updates) queries'
                else find_updates rule descriptors rest updates queries'
            | None => find_updates rule descriptors rest updates queries'
            end
      end
  end.

(** The outer [for (const [ruleGlob, { rule, packages }] of rulesWithPackages)]. *)
Fixpoint find_groups (descriptors : JsMap IdentHash Descriptor)
    (rwp : RulesWithPackages) (groups : RulesWithUpdates)
    (queries : list (Ident * string)) : RulesWithUpdates * list (Ident * string) :=
  match rwp with
  | [] => (groups, queries)
  | (ruleGlob, (rule, packages)) :: rest =>
      let '(updates, queries') := find_updates rule descriptors packages [] queries in
      match updates with
      | [] => find_groups descriptors rest groups queries'
      | _ :: _ =>
          find_groups descriptors rest (map_set String.eqb ruleGlob updates groups)
            queries'
      end
  end.

(** [findUpdateCandidates]: the candidate groups and the resolver calls. *)
Definition findUpdateCandidates (m : Manifest) (rwp : RulesWithPackages)
  : RulesWithUpdates * list (Ident * string) :=
  let descriptors := map_of_entries ident_eqb (allDependencies m) in
  find_groups descriptors rwp [] [].

Definition candidates (m : Manifest) (rwp : RulesWithPackages) : RulesWithUpdates :=
  fst (findUpdateCandidates m rwp).

Definition resolverCalls (m : Manifest) (rwp : RulesWithPackages)
  : list (Ident * string) :=
  snd (findUpdateCandidates m rwp).

(** *** [applyUpdates] and its helpers *)

(** [getInstalledVersion] *)
Definition getInstalledVersion (descriptorHash : DescriptorHash) (p : Project)
  : option string :=
  match map_get descriptor_eqb descriptorHash (storedResolutions p) with
  | Some locatorHash =>
      if str_truthy locatorHash then
        match map_get String.eqb locatorHash (storedPackages p) with
        | Some pkg => version pkg
        | None => None
        end
      else None
  | None => None
  end.

(** [extractVersionFromRange] *)
Definition extractVersionFromRange (r : string) : string :=
  match semverMinVersion r with
  | Some minVersion => minVersion
  | None => r
  end.

(** [getUpdateType] *)
Definition getUpdateType (fromVersion : option string) (toVersion : string)
  : option ReleaseType :=
  match fromVersion with
  | Some f =>
      if str_truthy f && str_truthy toVersion then semverDiff f toVersion
      else None
  | None => None
  end.

(** [fromVersion === toVersion], with [null] for a missing [fromVersion]. *)
Definition same_version (fromVersion : option string) (toVersion : string) : bool :=
  match fromVersion with
  | Some f => String.eqb f toVersion
  | None => false
  end.

(** The [for (const scopeKey of ['dependencies', 'devDependencies'])] loop. *)
Definition set_in_scope (identHash : IdentHash) (descriptor : Descriptor)
    (m : Manifest) (sk : ScopeKey) : Manifest :=
  if map_has ident_eqb identHash (getForScope sk m)
  then setForScope sk m (map_set ident_eqb identHash descriptor (getForScope sk m))
  else m.

Definition set_in_scopes (identHash : IdentHash) (descriptor : Descriptor)
    (m : Manifest) : Manifest :=
  fold_left (set_in_scope identHash descriptor) [ScopeDependencies; ScopeDevDependencies] m.

(** The body of [for (const [identHash, descriptor] of updates.entries())],
    with the state and [ruleUpdateCount] it threads. *)
Definition applyPackage (config : Config) (ws : Workspace) (isDryRun : bool)
    (ruleGlob : RuleGlob) (rule : RuleConfig)
    (st : ApplyState * Z) (u : IdentHash * Descriptor) : Flow (ApplyState * Z) :=
  let '(s, ruleUpdateCount) := st in
  let '(identHash, descriptor) := u in
  if cap_reached (maxPackageUpdates rule) ruleUpdateCount then Break st
  else
    let stringifiedIdent := stringifyIdent (convertToIdent descriptor) in
    match map_get ident_eqb identHash (wsDependencies ws) with
    | None => Continue st
    | Some oldBoundDescriptor =>
        let fromRange := selector (parseRange (range oldBoundDescriptor)) in
        let toRange := selector (parseRange (range descriptor)) in
        let fromVersion := getInstalledVersion oldBoundDescriptor (project ws) in
        let toVersion := extractVersionFromRange toRange in
        if same_version fromVersion toVersion && skipManifestOnlyChanges config
        then Continue st
        else
          let record :=
            mkChangesetRecord fromRange toRange fromVersion toVersion
              (getUpdateType fromVersion toVersion) in
          let s' :=
            mkApplyState
              (map_set String.eqb stringifiedIdent record (changeset s))
              (set_in_scopes identHash descriptor (stManifest s))
              (if isDryRun then forgotten s
               else (forgotten s ++ [oldBoundDescriptor])%list)
              (infos s ++ [mkInfoLine ruleGlob stringifiedIdent fromRange toRange])%list in
          Continue (s', (ruleUpdateCount + 1)%Z)
    end.

(** The inner loop over one group's updates. *)
Fixpoint applyGroup (config : Config) (ws : Workspace) (isDryRun : bool)
    (ruleGlob : RuleGlob) (rule : RuleConfig)
    (updates : list (IdentHash * Descriptor)) (st : ApplyState * Z) : ApplyState * Z :=
  match updates with
  | [] => st
  | u :: rest =>
      match applyPackage config ws isDryRun ruleGlob rule st u with
      | Break st' => st'
      | Continue st' => applyGroup config ws isDryRun ruleGlob rule rest st'
      end
  end.

(** The outer loop over [rulesWithUpdates.entries()], threading
    [rulesAppliedCount]. *)
Fixpoint applyGroups (config : Config) (ws : Workspace) (isDryRun : bool)
    (globToRule : JsMap RuleGlob RuleConfig) (groups : RulesWithUpdates)
    (s : ApplyState) (rulesAppliedCount : Z) : ApplyState :=
  match groups with
  | [] => s
  | (ruleGlob, updates) :: rest =>
      match map_get String.eqb ruleGlob globToRule with
      | None => applyGroups config ws isDryRun globToRule rest s rulesAppliedCount
      | Some rule =>
          if cap_reached (maxRulesApplied config) rulesAppliedCount then s
          else
            let '(s', ruleUpdateCount) :=
              applyGroup config ws isDryRun ruleGlob rule updates (s, 0%Z) in
            applyGroups config ws isDryRun globToRule rest s'
              (if negb (Z.eqb ruleUpdateCount 0) then (rulesAppliedCount + 1)%Z
               else rulesAppliedCount)
      end
  end.

(** [applyUpdates]: returns the changeset together with the mutated
    manifest, the forgotten resolutions and the info lines. *)
Definition applyUpdates (config : Config) (ws : Workspace) (isDryRun : bool)
    (rulesWithUpdates : RulesWithUpdates) : ApplyState :=
  let globToRule := map_of_entries String.eqb (rules config) in
  applyGroups config ws isDryRun globToRule rulesWithUpdates
    (mkApplyState [] (manifest ws) [] []) 0%Z.

(** *** [writeChangeset] and the pipeline of [execute] *)

(** One value of the changeset document written by [writeChangeset]. *)
Record ChangesetData := mkChangesetData {
  from_version : option string;
  from_range : string;
  to_version : string;
  to_range : string;
  update_type : option ReleaseType;
  release_notes : option string }.

(** The side effects of a run that leave the process: a resolution
    forgotten in the project, the changeset document written to a file or
    to stdout, and [project.install({ cache, report })], which re-resolves,
    reinstalls and persists the manifests and the lockfile. *)
Inductive Effect :=
  | ForgetResolution (d : Descriptor)
  | WriteChangesetFile (path : string) (data : JsMap string ChangesetData)
  | WriteStdout (data : JsMap string ChangesetData)
  | Install.

Definition changeset_data (cs : Changeset) : JsMap string ChangesetData :=
  fold_left
    (fun acc '(pkgName, record) =>
       map_set String.eqb pkgName
         (mkChangesetData (fromVersion record) (fromRange record)
            (toVersion record) (toRange record) (updateType record) None) acc)
    cs [].

(** [writeChangeset] *)
Definition writeChangeset (cmd : Command) (cs : Changeset) : list Effect :=
  match changesetFilename cmd with
  | None => []
  | Some f =>
      if negb (str_truthy f) then []
      else if String.eqb f "-" then [WriteStdout (changeset_data cs)]
      else [WriteChangesetFile f (changeset_data cs)]
  end.

(** The [pipeline] of [execute], after [parseConfigFile]: the final
    state of [applyUpdates] and the effects in the order they happen. *)
Definition pipeline (cmd : Command) (config : Config) (ws : Workspace)
  : ApplyState * list Effect :=
  let rulesWithPackages := getRulesWithPackages config (manifest ws) in
  let rulesWithUpdates := candidates (manifest ws) rulesWithPackages in
  let s := applyUpdates config ws (dryRun cmd) rulesWithUpdates in
  (s, (map ForgetResolution (forgotten s)
       ++ writeChangeset cmd (changeset s)
       ++ (if dryRun cmd then [] else [Install]))%list).

(** [execute]: the config file as [dynamicRequire] returned it ([None]
    when it threw), then the pipeline. *)
Definition execute (cmd : Command) (required : option ConfigFile) (ws : Workspace)
  : ApplyState * list Effect :=
  pipeline cmd (parseConfigFile cmd required) ws.

End Semverup.

(** ** Shorthands for the statements *)

(** Two caps that every [break] guard reads alike. *)
Definition cap_equiv (c1 c2 : Cap) : Prop :=
  forall n, cap_reached c1 n = cap_reached c2 n.

Definition rule_equiv (a b : RuleGlob * RuleConfig) : Prop :=
  fst a = fst b /\ cap_equiv (maxPackageUpdates (snd a)) (maxPackageUpdates (snd b)).

(** The number of info lines a glob's group reported. *)
Definition glob_count (g : RuleGlob) (s : ApplyState) : nat :=
  length (filter (fun l => String.eqb (infoGlob l) g) (infos s)).

Section Shorthands.
Variables (semverMinVersion : string -> option string)
          (semverDiff : string -> string -> option ReleaseType).

(** The record [applyUpdates] stores for the candidate [d] whose bound
    descriptor is [old]. *)
Definition record_of (ws : Workspace) (old d : Descriptor) : ChangesetRecord :=
  let fromRange := selector (parseRange (range old)) in
  let toRange := selector (parseRange (range d)) in
  let fromVersion := getInstalledVersion old (project ws) in
  let toVersion := extractVersionFromRange semverMinVersion toRange in
  mkChangesetRecord fromRange toRange fromVersion toVersion
    (getUpdateType semverDiff fromVersion toVersion).

(** [fromVersion === toVersion] for the candidate [d] bound to [old]. *)
Definition manifest_only (ws : Workspace) (old d : Descriptor) : bool :=
  same_version (getInstalledVersion old (project ws))
    (extractVersionFromRange semverMinVersion (selector (parseRange (range d)))).

End Shorthands.

(** ** Concrete collaborators for the examples *)

Module Fixture.

(** micromatch on patterns whose only wildcard is [*], which matches any
    run of characters other than [/]. *)
Fixpoint glob_match (p s : string) {struct p} : bool :=
  match p with
  | EmptyString => match s with EmptyString => true | _ => false end
  | String c p' =>
      if Ascii.eqb c "*"%char then
        (fix star (s : string) : bool :=
           glob_match p' s
           || match s with
              | String c' s' => negb (Ascii.eqb c' "/"%char) && star s'
              | EmptyString => false
              end) s
      else match s with
           | String c' s' => Ascii.eqb c c' && glob_match p' s'
           | EmptyString => false
           end
  end.

(** [micromatch([s], glob).length > 0] *)
Definition matcher (s ruleGlob : string) : bool := glob_match ruleGlob s.

(** semver's [minVersion] on caret, tilde and exact ranges, and [null] on
    the unsatisfiable range [>2.0.0 <1.0.0]. *)
Definition min_version (r : string) : option string :=
  match r with
  | String "^"%char v | String "~"%char v => Some v
  | ">2.0.0 <1.0.0" => None
  | String c _ =>
      if Ascii.leb "0"%char c && Ascii.leb c "9"%char then Some r else None
  | EmptyString => None
  end.

(** The update type plays no part in the statements below. *)
Definition no_diff (_ _ : string) : option ReleaseType := None.

Definition sa := mkIdent (Some "scope") "a".
Definition sb := mkIdent (Some "scope") "b".
Definition other := mkIdent None "other".

Definition dep (i : Ident) (r : string) : IdentHash * Descriptor :=
  (i, mkDescriptor i r).

(** Scenario A: three registry dependencies. *)
Definition manifestA : Manifest :=
  mkManifest [dep sa "^1.0.0"; dep sb "^1.0.0"; dep other "^2.0.0"] [].

Definition workspaceA : Workspace :=
  mkWorkspace manifestA (dependencies manifestA) (mkProject [] []).

Definition resolverA (i : Ident) (q : string) : option Descriptor :=
  if ident_eqb i sa then Some (mkDescriptor sa "^1.2.0")
  else if ident_eqb i sb then Some (mkDescriptor sb "^1.1.0")
  else Some (mkDescriptor i q).

Definition configA (maxPkg maxRules : Cap) : Config :=
  mkConfig [("@scope/*", mkRuleConfig maxPkg true)] maxRules false.

Definition cmdA (dry : bool) (out : option string) : Command :=
  mkCommand "semver-up.json" out dry true [].

(** A resolver with an update for each of the three packages. *)
Definition resolverB (i : Ident) (q : string) : option Descriptor :=
  if ident_eqb i sa then Some (mkDescriptor sa "^1.2.0")
  else if ident_eqb i sb then Some (mkDescriptor sb "^1.1.0")
  else Some (mkDescriptor i "^2.1.0").

(** Two rule groups, [@scope/*] then [other]. *)
Definition configB (maxRules : Cap) : Config :=
  mkConfig [("@scope/*", ruleConfigDefaults); ("other", ruleConfigDefaults)]
    maxRules false.

(** A resolver answering with an unsatisfiable range. *)
Definition resolverC (i : Ident) (q : string) : option Descriptor :=
  Some (mkDescriptor i ">2.0.0 <1.0.0").

(** A resolver answering with the queried range behind an explicit
    [npm:] protocol. *)
Definition resolverD (i : Ident) (q : string) : option Descriptor :=
  Some (mkDescriptor i ("npm:" ++ q)).

(** One rule, [other]. *)
Definition configC : Config :=
  mkConfig [("other", ruleConfigDefaults)] CapFalse false.

(** A project in which [@scope/a] is installed at 1.2.0 and [@scope/b]
    at 1.1.0, the versions [resolverA] proposes. *)
Definition projectC : Project :=
  mkProject [(mkDescriptor sa "^1.0.0", "loc-a"); (mkDescriptor sb "^1.0.0", "loc-b")]
    [("loc-a", mkPackage (Some "1.2.0")); ("loc-b", mkPackage (Some "1.1.0"))].

Definition workspaceC : Workspace :=
  mkWorkspace manifestA (dependencies manifestA) projectC.

(** [other] declared through a VCS reference. *)
Definition manifestE : Manifest :=
  mkManifest [dep sa "^1.0.0"; dep other "github:acme/other"] [].

Definition workspaceE : Workspace :=
  mkWorkspace manifestE (dependencies manifestE) (mkProject [] []).

(** One rule [@scope/*] capped at one package, with the given
    [skipManifestOnlyChanges]. *)
Definition configS (skip : bool) : Config :=
  mkConfig [("@scope/*", mkRuleConfig (CapNum 1) true)] CapFalse skip.

End Fixture.

Import Fixture.

(** The rule of a bucket of [getRulesWithPackages], without its packages. *)
Definition bucket_shape (b : RuleGlob * (RuleConfig * list IdentHash)) : RuleGlob * RuleConfig :=
  (fst b, fst (snd b)).

(** A run has applied a candidate: its info line was reported and its
    package name is a key of the changeset. *)
Definition applied_mark (line : InfoLine) (key : string) (s : ApplyState) : Prop :=
  In line (infos s) /\ In key (map fst (changeset s)).

(** * Properties *)

(** ** Examples *)

Example parseRange_npm :
  parseRange "npm:^1.2.0" = mkParsedRange (Some "npm:") None "^1.2.0" None.
Proof. reflexivity. Qed.

Example parseRange_plain :
  parseRange "^1.2.0" = mkParsedRange None None "^1.2.0" None.
Proof. reflexivity. Qed.

Example parseRange_git :
  protocol (parseRange "git+https://host/repo.git#v1") = Some "git+https:".
Proof. reflexivity. Qed.

Example parseConfigFile_no_file :
  parseConfigFile (mkCommand "semver-up.json" None false true []) None
  = mkConfig [("*", mkRuleConfig CapFalse true)] (CapNum 1) false.
Proof. reflexivity. Qed.

Example scenarioA_changeset :
  map fst (changeset (fst (pipeline matcher min_version no_diff "npm:" resolverA
                             (cmdA false None) (configA (CapNum 1) (CapNum 1))
                             workspaceA)))
  = ["@scope/a"].
Proof. reflexivity. Qed.

Example scenarioB_changeset :
  map fst (changeset (fst (pipeline matcher min_version no_diff "npm:" resolverA
                             (cmdA false None) (configA CapFalse CapFalse)
                             workspaceA)))
  = ["@scope/a"; "@scope/b"].
Proof. reflexivity. Qed.

(** ** Equality tests and JS maps *)

Lemma opt_str_eqb_true (a b : option string) : opt_str_eqb a b = true <-> a = b.
Proof.
  destruct a as [x|], b as [y|]; simpl; try (split; congruence).
  rewrite String.eqb_eq. split; congruence.
Qed.

Lemma ident_eqb_true (a b : Ident) : ident_eqb a b = true <-> a = b.
Proof.
  destruct a as [sa na], b as [sb nb]; unfold ident_eqb; simpl.
  rewrite andb_true_iff, opt_str_eqb_true, String.eqb_eq.
  split; [intros [-> ->]; reflexivity | intros H; inversion H; auto].
Qed.

Lemma ident_eqb_refl (a : Ident) : ident_eqb a a = true.
Proof. apply ident_eqb_true; reflexivity. Qed.

Section MapFacts.
Context {K V : Type} (keq : K -> K -> bool)
        (keq_true : forall a b, keq a b = true <-> a = b).

Lemma map_get_In (k : K) (v : V) (m : JsMap K V) :
  map_get keq k m = Some v -> In (k, v) m.
Proof.
  induction m as [|[k' v'] m IH]; simpl; [discriminate|].
  destruct (keq k k') eqn:E.
  - apply keq_true in E; subst. intros H; inversion H; auto.
  - intros H; right; auto.
Qed.

Lemma In_map_set (k k0 : K) (v v0 : V) (m : JsMap K V) :
  In (k, v) (map_set keq k0 v0 m) -> (k = k0 /\ v = v0) \/ In (k, v) m.
Proof.
  induction m as [|[k' v'] m IH]; simpl.
  - intros [H|[]]; inversion H; auto.
  - destruct (keq k0 k') eqn:E.
    + apply keq_true in E; subst.
      intros [H|H]; [inversion H; auto | auto].
    + intros [H|H]; [auto | destruct (IH H) as [?|?]; auto].
Qed.

Lemma map_get_map_set_eq (k : K) (v : V) (m : JsMap K V) :
  map_get keq k (map_set keq k v m) = Some v.
Proof.
  induction m as [|[k' v'] m IH]; simpl.
  - assert (keq k k = true) as -> by (apply keq_true; reflexivity); reflexivity.
  - destruct (keq k k') eqn:E; simpl.
    + rewrite E; reflexivity.
    + rewrite E; exact IH.
Qed.

Lemma In_map_of_entries (k : K) (v : V) (es : list (K * V)) :
  In (k, v) (map_of_entries keq es) -> In (k, v) es.
Proof.
  unfold map_of_entries.
  assert (forall acc, In (k, v) (fold_left (fun m '(k0, v0) => map_set keq k0 v0 m) es acc)
                      -> In (k, v) acc \/ In (k, v) es) as H.
  { induction es as [|[k1 v1] es IH]; simpl; intros acc Hin; [auto|].
    destruct (IH _ Hin) as [H|H]; [|auto].
    destruct (In_map_set _ _ _ _ _ H) as [[-> ->]|H']; auto. }
  intros Hin; destruct (H [] Hin) as [[]|?]; auto.
Qed.
End MapFacts.

Lemma String_eqb_true (a b : string) : String.eqb a b = true <-> a = b.
Proof. apply String.eqb_eq. Qed.

(** [cap_reached] in terms of the cap's number. *)
Lemma cap_reached_num (n count : Z) :
  cap_reached (CapNum n) count = true <-> n <> 0%Z /\ (n <= count)%Z.
Proof.
  unfold cap_reached, cap_truthy.
  rewrite andb_true_iff, negb_true_iff, Z.eqb_neq, Z.leb_le; tauto.
Qed.

Lemma cap_reached_false (count : Z) : cap_reached CapFalse count = false.
Proof. reflexivity. Qed.

(** ** The caps are read only through [cap_reached] *)

Lemma cap_equiv_zero_false : cap_equiv (CapNum 0) CapFalse.
Proof. intros n; reflexivity. Qed.

Section CapEquiv.
Variables (semverMinVersion : string -> option string)
          (semverDiff : string -> string -> option ReleaseType).

Lemma applyPackage_cap_equiv (c1 c2 : Config) ws dry g (r1 r2 : RuleConfig) st u :
  skipManifestOnlyChanges c1 = skipManifestOnlyChanges c2 ->
  cap_equiv (maxPackageUpdates r1) (maxPackageUpdates r2) ->
  applyPackage semverMinVersion semverDiff c1 ws dry g r1 st u
  = applyPackage semverMinVersion semverDiff c2 ws dry g r2 st u.
Proof.
  intros Hs Hc; destruct st as [s n], u as [k d]; unfold applyPackage.
  rewrite Hc, Hs; reflexivity.
Qed.

Lemma applyGroup_cap_equiv (c1 c2 : Config) ws dry g (r1 r2 : RuleConfig) ups st :
  skipManifestOnlyChanges c1 = skipManifestOnlyChanges c2 ->
  cap_equiv (maxPackageUpdates r1) (maxPackageUpdates r2) ->
  applyGroup semverMinVersion semverDiff c1 ws dry g r1 ups st
  = applyGroup semverMinVersion semverDiff c2 ws dry g r2 ups st.
Proof.
  intros Hs Hc; revert st; induction ups as [|u ups IH]; intros st; simpl; [reflexivity|].
  rewrite (applyPackage_cap_equiv c1 c2 ws dry g r1 r2 st u Hs Hc).
  destruct (applyPackage _ _ c2 ws dry g r2 st u); [reflexivity | apply IH].
Qed.

Lemma map_get_Forall2 (m1 m2 : JsMap RuleGlob RuleConfig) g :
  Forall2 rule_equiv m1 m2 ->
  match map_get String.eqb g m1, map_get String.eqb g m2 with
  | None, None => True
  | Some r1, Some r2 => cap_equiv (maxPackageUpdates r1) (maxPackageUpdates r2)
  | _, _ => False
  end.
Proof.
  induction 1 as [|[g1 r1] [g2 r2] m1 m2 [Hg Hc] _ IH]; simpl in *; [exact I|].
  subst g2; destruct (String.eqb g g1); auto.
Qed.

Lemma map_set_Forall2 (m1 m2 : JsMap RuleGlob RuleConfig) g r1 r2 :
  Forall2 rule_equiv m1 m2 ->
  cap_equiv (maxPackageUpdates r1) (maxPackageUpdates r2) ->
  Forall2 rule_equiv (map_set String.eqb g r1 m1) (map_set String.eqb g r2 m2).
Proof.
  intros HF Hc; induction HF as [|[g1 q1] [g2 q2] m1 m2 [Hg Hq] HF IH]; simpl in *.
  - constructor; [split; auto | constructor].
  - subst g2; destruct (String.eqb g g1).
    + constructor; [split; auto | assumption].
    + constructor; [split; auto | assumption].
Qed.

Lemma map_of_entries_Forall2 (rs1 rs2 : list (RuleGlob * RuleConfig)) :
  Forall2 rule_equiv rs1 rs2 ->
  Forall2 rule_equiv (map_of_entries String.eqb rs1) (map_of_entries String.eqb rs2).
Proof.
  unfold map_of_entries.
  assert (forall a1 a2, Forall2 rule_equiv a1 a2 -> Forall2 rule_equiv rs1 rs2 ->
    Forall2 rule_equiv
      (fold_left (fun m '(k, v) => map_set String.eqb k v m) rs1 a1)
      (fold_left (fun m '(k, v) => map_set String.eqb k v m) rs2 a2)) as H.
  { intros a1 a2 Ha HF; revert a1 a2 Ha.
    induction HF as [|[g1 q1] [g2 q2] l1 l2 [Hg Hq] _ IH]; intros a1 a2 Ha; simpl in *;
      [exact Ha|].
    subst g2; apply IH, map_set_Forall2; assumption. }
  intros HF; apply H; [constructor | exact HF].
Qed.

Lemma applyGroups_cap_equiv (c1 c2 : Config) ws dry t1 t2 groups s n :
  skipManifestOnlyChanges c1 = skipManifestOnlyChanges c2 ->
  cap_equiv (maxRulesApplied c1) (maxRulesApplied c2) ->
  Forall2 rule_equiv t1 t2 ->
  applyGroups semverMinVersion semverDiff c1 ws dry t1 groups s n
  = applyGroups semverMinVersion semverDiff c2 ws dry t2 groups s n.
Proof.
  intros Hs Hm Ht; revert s n.
  induction groups as [|[g ups] groups IH]; intros s n; simpl; [reflexivity|].
  pose proof (map_get_Forall2 t1 t2 g Ht) as Hg.
  destruct (map_get String.eqb g t1) as [r1|], (map_get String.eqb g t2) as [r2|];
    try contradiction; [|apply IH].
  rewrite Hm; destruct (cap_reached (maxRulesApplied c2) n); [reflexivity|].
  rewrite (applyGroup_cap_equiv c1 c2 ws dry g r1 r2 ups (s, 0%Z) Hs Hg).
  destruct (applyGroup _ _ c2 ws dry g r2 ups (s, 0%Z)); apply IH.
Qed.

Lemma applyUpdates_cap_equiv (c1 c2 : Config) ws dry rwu :
  skipManifestOnlyChanges c1 = skipManifestOnlyChanges c2 ->
  cap_equiv (maxRulesApplied c1) (maxRulesApplied c2) ->
  Forall2 rule_equiv (rules c1) (rules c2) ->
  applyUpdates semverMinVersion semverDiff c1 ws dry rwu
  = applyUpdates semverMinVersion semverDiff c2 ws dry rwu.
Proof.
  intros Hs Hm Hr; unfold applyUpdates.
  apply applyGroups_cap_equiv; auto using map_of_entries_Forall2.
Qed.
End CapEquiv.

(** ** One step of [applyUpdates] *)

Section Steps.
Variables (semverMinVersion : string -> option string)
          (semverDiff : string -> string -> option ReleaseType).

Lemma applyPackage_Break config ws dry g r s0 c0 u st :
  applyPackage semverMinVersion semverDiff config ws dry g r (s0, c0) u = Break st ->
  st = (s0, c0) /\ cap_reached (maxPackageUpdates r) c0 = true.
Proof.
  destruct u as [k d]; unfold applyPackage.
  destruct (cap_reached (maxPackageUpdates r) c0) eqn:Ec.
  - intros H; inversion H; auto.
  - destruct (map_get ident_eqb k (wsDependencies ws)); [|discriminate].
    destruct (_ && _); discriminate.
Qed.

Lemma applyPackage_Continue config ws dry g r s0 c0 k d s1 c1 :
  applyPackage semverMinVersion semverDiff config ws dry g r (s0, c0) (k, d) = Continue (s1, c1) ->
  cap_reached (maxPackageUpdates r) c0 = false /\
  ((s1 = s0 /\ c1 = c0) \/
   (exists old,
      map_get ident_eqb k (wsDependencies ws) = Some old /\
      manifest_only semverMinVersion ws old d && skipManifestOnlyChanges config = false /\
      c1 = (c0 + 1)%Z /\
      s1 = mkApplyState
             (map_set String.eqb (stringifyIdent (descIdent d)) (record_of semverMinVersion semverDiff ws old d)
                (changeset s0))
             (set_in_scopes k d (stManifest s0))
             (if dry then forgotten s0 else (forgotten s0 ++ [old])%list)
             (infos s0 ++ [mkInfoLine g (stringifyIdent (descIdent d))
                             (selector (parseRange (range old)))
                             (selector (parseRange (range d)))])%list)).
Proof.
  unfold applyPackage.
  destruct (cap_reached (maxPackageUpdates r) c0) eqn:Ec; [discriminate|].
  intros H; split; [reflexivity|].
  destruct (map_get ident_eqb k (wsDependencies ws)) as [old|] eqn:Eo.
  - unfold manifest_only, record_of.
    destruct (_ && _) eqn:Es.
    + inversion H; auto.
    + right; exists old; inversion H; subst; auto.
  - inversion H; auto.
Qed.

(** Invariants of the loops: a property kept by every step that goes on
    holds of the final state. *)
Lemma applyGroup_ind (P : ApplyState -> Prop) config ws dry g r ups st :
  (forall u s0 c0 s1 c1, In u ups ->
     applyPackage semverMinVersion semverDiff config ws dry g r (s0, c0) u = Continue (s1, c1) -> P s0 -> P s1) ->
  P (fst st) -> P (fst (applyGroup semverMinVersion semverDiff config ws dry g r ups st)).
Proof.
  revert st; induction ups as [|u ups IH]; intros [s c] Hstep HP; cbn [applyGroup];
    [exact HP|].
  destruct (applyPackage semverMinVersion semverDiff config ws dry g r (s, c) u) as [st'|[s1 c1]] eqn:E.
  - apply applyPackage_Break in E; destruct E as [-> _]; exact HP.
  - apply IH; [intros; eapply Hstep; eauto; right; auto|].
    simpl; eapply Hstep; eauto; left; auto.
Qed.

Lemma applyGroups_ind (P : ApplyState -> Prop) config ws dry t groups s n :
  (forall g ups r u s0 c0 s1 c1, In (g, ups) groups -> In u ups ->
     map_get String.eqb g t = Some r ->
     applyPackage semverMinVersion semverDiff config ws dry g r (s0, c0) u = Continue (s1, c1) -> P s0 -> P s1) ->
  P s -> P (applyGroups semverMinVersion semverDiff config ws dry t groups s n).
Proof.
  revert s n; induction groups as [|[g ups] groups IH]; intros s n Hstep HP;
    cbn [applyGroups]; [exact HP|].
  destruct (map_get String.eqb g t) as [r|] eqn:Er.
  - destruct (cap_reached (maxRulesApplied config) n); [exact HP|].
    pose proof (applyGroup_ind P config ws dry g r ups (s, 0%Z)) as HG.
    destruct (applyGroup semverMinVersion semverDiff config ws dry g r ups (s, 0%Z)) as [s' c'] eqn:EG.
    apply IH; [intros; eapply Hstep; eauto; right; auto|].
    apply HG; [|exact HP]. intros; eapply Hstep; eauto; left; auto.
  - apply IH; [intros; eapply Hstep; eauto; right; auto | exact HP].
Qed.

Lemma applyUpdates_ind (P : ApplyState -> Prop) config ws dry rwu :
  (forall g ups r u s0 c0 s1 c1, In (g, ups) rwu -> In u ups ->
     map_get String.eqb g (map_of_entries String.eqb (rules config)) = Some r ->
     applyPackage semverMinVersion semverDiff config ws dry g r (s0, c0) u = Continue (s1, c1) -> P s0 -> P s1) ->
  P (mkApplyState [] (manifest ws) [] []) ->
  P (applyUpdates semverMinVersion semverDiff config ws dry rwu).
Proof. intros; unfold applyUpdates; apply applyGroups_ind; auto. Qed.

End Steps.

(** ** Dry runs leave the resolutions alone *)

Lemma applyUpdates_dry_forgotten semverMinVersion semverDiff config ws rwu :
  forgotten (applyUpdates semverMinVersion semverDiff config ws true rwu) = [].
Proof.
  apply (applyUpdates_ind semverMinVersion semverDiff (fun s => forgotten s = [])); [|reflexivity].
  intros g ups r [k d] s0 c0 s1 c1 _ _ _ Hc H0.
  apply applyPackage_Continue in Hc; destruct Hc as [_ [[-> _]|[old [_ [_ [_ ->]]]]]];
    simpl; assumption.
Qed.

(** * Properties of the plugin *)

(** ** Rule Config Model *)

(** C8: when at least one rule glob is given on the command line, the
    config's rules are exactly those globs, in order, each with the default
    rule config ([ruleConfigDefaults], whose [preserveSemVerRange] the
    [--preserve-semver] flag sets and which is [ruleConfigDefaults] itself
    when the flag keeps its default [true]); the rules of the config file
    play no part, and [maxRulesApplied] is the unbounded [false]. *)
Theorem parseConfigFile_cli_globs (cmd : Command) (required : option ConfigFile) :
  ruleGlobs cmd <> [] ->
  rules (parseConfigFile cmd required)
    = map (fun ruleGlob =>
             (ruleGlob, mkRuleConfig (maxPackageUpdates ruleConfigDefaults)
                          (cmdPreserveSemVerRange cmd)))
          (ruleGlobs cmd)
  /\ maxRulesApplied (parseConfigFile cmd required) = CapFalse
  /\ (cmdPreserveSemVerRange cmd = true ->
      rules (parseConfigFile cmd required)
        = map (fun ruleGlob => (ruleGlob, ruleConfigDefaults)) (ruleGlobs cmd)).
Proof.
  intros Hne; unfold parseConfigFile.
  destruct (ruleGlobs cmd) as [|g gs]; [contradiction|].
  simpl; split; [reflexivity|split; [reflexivity|]].
  intros ->; reflexivity.
Qed.

Lemma parseConfigFile_cli_globs_witness :
  let cmd := mkCommand "semver-up.json" None true false ["react*"; "@babel/*"] in
  let file := mkConfigFile (Some [("@scope/*", mkPartialRuleConfig (Some (CapNum 1)) None)])
                (Some (CapNum 3)) (Some true) in
  ruleGlobs cmd <> [] /\
  rules (parseConfigFile cmd (Some file))
    = map (fun ruleGlob =>
             (ruleGlob, mkRuleConfig (maxPackageUpdates ruleConfigDefaults)
                          (cmdPreserveSemVerRange cmd)))
          (ruleGlobs cmd)
  /\ maxRulesApplied (parseConfigFile cmd (Some file)) = CapFalse
  /\ (cmdPreserveSemVerRange cmd = true ->
      rules (parseConfigFile cmd (Some file))
        = map (fun ruleGlob => (ruleGlob, ruleConfigDefaults)) (ruleGlobs cmd)).
Proof.
  intros cmd file; split; [discriminate|].
  apply parseConfigFile_cli_globs; discriminate.
Defined.

(** ** Caps of [0] *)

(** C10: both caps are tested by truthiness, so a cap of [0] (for
    [maxRulesApplied] or for any rule's [maxPackageUpdates]) behaves exactly
    like the unbounded [false]: for every candidate map, [applyUpdates]
    yields the same changeset, manifest, forgotten resolutions and info
    lines. *)
Theorem applyUpdates_zero_cap_unbounded semverMinVersion semverDiff
    (rs0 rsF : list (RuleGlob * RuleConfig)) (mr0 mrF : Cap) (skip : bool)
    (ws : Workspace) (dry : bool) (rwu : RulesWithUpdates) :
  Forall2 (fun a b =>
             fst a = fst b
             /\ preserveSemVerRange (snd a) = preserveSemVerRange (snd b)
             /\ (maxPackageUpdates (snd a) = maxPackageUpdates (snd b)
                 \/ (maxPackageUpdates (snd a) = CapNum 0
                     /\ maxPackageUpdates (snd b) = CapFalse)))
          rs0 rsF ->
  (mr0 = mrF \/ (mr0 = CapNum 0 /\ mrF = CapFalse)) ->
  applyUpdates semverMinVersion semverDiff (mkConfig rs0 mr0 skip) ws dry rwu
  = applyUpdates semverMinVersion semverDiff (mkConfig rsF mrF skip) ws dry rwu.
Proof.
  intros Hr Hm; apply applyUpdates_cap_equiv; simpl; [reflexivity| |].
  - destruct Hm as [->|[-> ->]]; [intros n; reflexivity | apply cap_equiv_zero_false].
  - eapply Forall2_impl; [|exact Hr].
    intros a b [Hg [_ Hc]]; split; [exact Hg|].
    destruct Hc as [Hc|[Ha Hb]].
    + rewrite Hc; intros n; reflexivity.
    + rewrite Ha, Hb; apply cap_equiv_zero_false.
Qed.

Lemma applyUpdates_zero_cap_unbounded_witness :
  let rs0 := [("@scope/*", mkRuleConfig (CapNum 0) true)] in
  let rsF := [("@scope/*", mkRuleConfig CapFalse true)] in
  let rwu := [("@scope/*", [dep sa "^1.2.0"; dep sb "^1.1.0"])] in
  Forall2 (fun a b =>
             fst a = fst b
             /\ preserveSemVerRange (snd a) = preserveSemVerRange (snd b)
             /\ (maxPackageUpdates (snd a) = maxPackageUpdates (snd b)
                 \/ (maxPackageUpdates (snd a) = CapNum 0
                     /\ maxPackageUpdates (snd b) = CapFalse)))
          rs0 rsF
  /\ (CapNum 0 = CapFalse \/ (CapNum 0 = CapNum 0 /\ CapFalse = CapFalse))
  /\ applyUpdates min_version no_diff (mkConfig rs0 (CapNum 0) false) workspaceA false rwu
     = applyUpdates min_version no_diff (mkConfig rsF CapFalse false) workspaceA false rwu.
Proof.
  intros rs0 rsF rwu.
  assert (H1 : Forall2 (fun a b =>
             fst a = fst b
             /\ preserveSemVerRange (snd a) = preserveSemVerRange (snd b)
             /\ (maxPackageUpdates (snd a) = maxPackageUpdates (snd b)
                 \/ (maxPackageUpdates (snd a) = CapNum 0
                     /\ maxPackageUpdates (snd b) = CapFalse)))
          rs0 rsF).
  { constructor; [simpl; split; [reflexivity|split; [reflexivity|right; split; reflexivity]]
                 | constructor]. }
  assert (H2 : CapNum 0 = CapFalse \/ (CapNum 0 = CapNum 0 /\ CapFalse = CapFalse)).
  { right; split; reflexivity. }
  split; [exact H1|split; [exact H2|]].
  apply (applyUpdates_zero_cap_unbounded min_version no_diff rs0 rsF (CapNum 0) CapFalse
           false workspaceA false rwu H1 H2).
Defined.

(** ** Dry runs *)

(** C9 (counterexample): with [--dry-run] and [--changeset out.json], the
    run still writes the changeset document to [out.json]. *)
Lemma execute_dry_run_writes_changeset :
  exists data,
    In (WriteChangesetFile "out.json" data)
      (snd (execute matcher min_version no_diff "npm:" resolverA
              (cmdA true (Some "out.json"))
              (Some (mkConfigFile (Some [("@scope/*", mkPartialRuleConfig None None)])
                       (Some CapFalse) None))
              workspaceA))
    /\ map fst data = ["@scope/a"; "@scope/b"].
Proof. eexists; split; [vm_compute; left; reflexivity | reflexivity]. Qed.

(** C9 (amended): in a dry run the only effect of the run is the changeset
    document that [writeChangeset] emits (to the [--changeset] file or to
    stdout, none without [--changeset]): [project.install], which persists
    the manifests and reinstalls, is not called and no resolution is
    forgotten. *)
Theorem execute_dry_run_effects micromatch semverMinVersion semverDiff defaultProtocol
    fetchDescriptorFrom (cmd : Command) (required : option ConfigFile) (ws : Workspace) :
  dryRun cmd = true ->
  let run := execute micromatch semverMinVersion semverDiff defaultProtocol
               fetchDescriptorFrom cmd required ws in
  snd run = writeChangeset cmd (changeset (fst run))
  /\ forgotten (fst run) = []
  /\ (forall e, In e (snd run) -> e <> Install /\ forall d, e <> ForgetResolution d).
Proof.
  intros Hd run.
  assert (Hf : forgotten (fst run) = []).
  { unfold run, execute, pipeline; simpl; rewrite Hd; apply applyUpdates_dry_forgotten. }
  assert (He : snd run = writeChangeset cmd (changeset (fst run))).
  { unfold run, execute, pipeline in *; simpl in *; rewrite Hf, Hd; simpl.
    rewrite app_nil_r; reflexivity. }
  split; [exact He|split; [exact Hf|]].
  intros e; rewrite He; unfold writeChangeset.
  destruct (changesetFilename cmd) as [f|]; [|intros []].
  destruct (negb (str_truthy f)); [intros []|].
  destruct (String.eqb f "-"); (intros [<-|[]]; split; [discriminate | intros d; discriminate]).
Qed.

Lemma execute_dry_run_effects_witness :
  let run := execute matcher min_version no_diff "npm:" resolverA
               (cmdA true (Some "out.json")) None workspaceA in
  dryRun (cmdA true (Some "out.json")) = true
  /\ snd run = writeChangeset (cmdA true (Some "out.json")) (changeset (fst run))
  /\ forgotten (fst run) = []
  /\ (forall e, In e (snd run) -> e <> Install /\ forall d, e <> ForgetResolution d).
Proof.
  intros run; split; [reflexivity|].
  apply (execute_dry_run_effects matcher min_version no_diff "npm:" resolverA
           (cmdA true (Some "out.json")) None workspaceA); reflexivity.
Defined.

(** ** What one group contributes *)

Section GroupContribution.
Variables (semverMinVersion : string -> option string)
          (semverDiff : string -> string -> option ReleaseType).

(** A group run appends info lines carrying its glob, one per applied
    update, and [ruleUpdateCount] counts them. *)
Lemma applyGroup_infos config ws dry g r ups s c0 s' c' :
  applyGroup semverMinVersion semverDiff config ws dry g r ups (s, c0) = (s', c') ->
  exists L, infos s' = (infos s ++ L)%list
            /\ Forall (fun l => infoGlob l = g) L
            /\ c' = (c0 + Z.of_nat (length L))%Z.
Proof.
  revert s c0; induction ups as [|[k d] ups IH]; intros s c0; cbn [applyGroup].
  - intros H; inversion H; subst; exists []; rewrite app_nil_r; split; [reflexivity|split; [constructor|simpl; lia]].
  - destruct (applyPackage semverMinVersion semverDiff config ws dry g r (s, c0) (k, d))
      as [st|[s1 c1]] eqn:E.
    + apply applyPackage_Break in E; destruct E as [-> _].
      intros H; inversion H; subst; exists []; rewrite app_nil_r; split; [reflexivity|split; [constructor|simpl; lia]].
    + intros H; destruct (IH s1 c1 H) as [L [HL [HF Hc]]].
      apply applyPackage_Continue in E; destruct E as [_ [[-> ->]|[old [_ [_ [-> ->]]]]]].
      * exists L; auto.
      * simpl in HL; rewrite <- app_assoc in HL.
        eexists; split; [exact HL|split].
        -- constructor; [reflexivity|exact HF].
        -- simpl length; rewrite Hc; lia.
Qed.

(** With a truthy numeric cap [M], a group applies at most [M] updates. *)
Lemma applyGroup_count_bound config ws dry g r ups s c0 s' c' M :
  maxPackageUpdates r = CapNum M -> M <> 0%Z -> (c0 <= M)%Z ->
  applyGroup semverMinVersion semverDiff config ws dry g r ups (s, c0) = (s', c') ->
  (c' <= M)%Z.
Proof.
  intros Hr HM; revert s c0; induction ups as [|[k d] ups IH]; intros s c0 Hc0;
    cbn [applyGroup].
  - intros H; inversion H; subst; assumption.
  - destruct (applyPackage semverMinVersion semverDiff config ws dry g r (s, c0) (k, d))
      as [st|[s1 c1]] eqn:E.
    + apply applyPackage_Break in E; destruct E as [-> _].
      intros H; inversion H; subst; assumption.
    + intros H; apply (IH s1 c1); [|exact H].
      apply applyPackage_Continue in E; destruct E as [Hcap [[_ ->]|[old [_ [_ [-> _]]]]]];
        [assumption|].
      rewrite Hr in Hcap.
      destruct (Z.le_gt_cases M c0) as [Hle|Hgt]; [|lia].
      assert (cap_reached (CapNum M) c0 = true) by (apply cap_reached_num; auto).
      congruence.
Qed.
End GroupContribution.

(** ** The caps when they are truthy *)

Section CapBounds.
Variables (semverMinVersion : string -> option string)
          (semverDiff : string -> string -> option ReleaseType).

Lemma applyGroups_groups_bounded config ws dry t groups s n gs N :
  maxRulesApplied config = CapNum N -> N <> 0%Z ->
  (Z.of_nat (length gs) <= n)%Z -> (n <= N)%Z ->
  (forall l, In l (infos s) -> In (infoGlob l) gs) ->
  exists gs', (Z.of_nat (length gs') <= N)%Z /\
    forall l, In l (infos (applyGroups semverMinVersion semverDiff config ws dry t groups s n))
              -> In (infoGlob l) gs'.
Proof.
  intros HN HN0; revert s n gs; induction groups as [|[g ups] groups IH];
    intros s n gs Hgs HnN Hin; cbn [applyGroups].
  - exists gs; split; [lia|exact Hin].
  - destruct (map_get String.eqb g t) as [r|]; [|apply (IH s n gs); assumption].
    destruct (cap_reached (maxRulesApplied config) n) eqn:Ecap.
    + exists gs; split; [lia|exact Hin].
    + rewrite HN in Ecap.
      assert (Hlt : (n < N)%Z).
      { destruct (Z.lt_ge_cases n N) as [H|H]; [exact H|].
        assert (cap_reached (CapNum N) n = true) by (apply cap_reached_num; split; [exact HN0|lia]).
        congruence. }
      destruct (applyGroup semverMinVersion semverDiff config ws dry g r ups (s, 0%Z))
        as [s' c'] eqn:EG.
      destruct (applyGroup_infos semverMinVersion semverDiff _ _ _ _ _ _ _ _ _ _ EG)
        as [L [HL [HF Hc]]].
      destruct (Z.eqb c' 0) eqn:Ec; simpl negb; cbv iota.
      * apply Z.eqb_eq in Ec.
        assert (L = []) as ->.
        { destruct L; [reflexivity|simpl in Hc; lia]. }
        rewrite app_nil_r in HL.
        apply (IH s' n gs); [lia|lia|rewrite HL; exact Hin].
      * apply (IH s' (n + 1)%Z (g :: gs)); [simpl length; lia|lia|].
        intros l; rewrite HL; intros Hl; apply in_app_or in Hl; destruct Hl as [Hl|Hl].
        -- right; apply Hin; exact Hl.
        -- left; rewrite Forall_forall in HF; symmetry; apply HF; exact Hl.
Qed.

(** Every changeset entry was reported by an info line naming it. *)
Lemma applyUpdates_entries_reported config ws dry rwu :
  forall key rec,
    In (key, rec) (changeset (applyUpdates semverMinVersion semverDiff config ws dry rwu)) ->
    exists l, In l (infos (applyUpdates semverMinVersion semverDiff config ws dry rwu))
              /\ infoIdent l = key.
Proof.
  apply (applyUpdates_ind semverMinVersion semverDiff
           (fun s => forall key rec, In (key, rec) (changeset s) ->
                     exists l, In l (infos s) /\ infoIdent l = key)).
  - intros g ups r [k d] s0 c0 s1 c1 _ _ _ Hc IH0 key rec Hin.
    apply applyPackage_Continue in Hc; destruct Hc as [_ [[-> _]|[old [_ [_ [_ ->]]]]]];
      [apply (IH0 key rec Hin)|].
    simpl in Hin |- *.
    apply (In_map_set String.eqb String_eqb_true) in Hin.
    destruct Hin as [[-> _]|Hin].
    + eexists; split; [apply in_or_app; right; left; reflexivity | reflexivity].
    + destruct (IH0 key rec Hin) as [l [Hl Hk]].
      exists l; split; [apply in_or_app; left; exact Hl | exact Hk].
  - intros key rec [].
Qed.

Lemma map_of_entries_nodup (es : list (RuleGlob * RuleConfig)) :
  NoDup (map fst es) -> map_of_entries String.eqb es = es.
Proof.
  unfold map_of_entries.
  assert (Hset : forall (acc : JsMap RuleGlob RuleConfig) k v, ~ In k (map fst acc) ->
            map_set String.eqb k v acc = (acc ++ [(k, v)])%list).
  { induction acc as [|[k' v'] acc IH]; intros k v Hk; simpl; [reflexivity|].
    destruct (String.eqb k k') eqn:E.
    - apply String_eqb_true in E; subst; exfalso; apply Hk; left; reflexivity.
    - rewrite IH; [reflexivity|intros H; apply Hk; right; exact H]. }
  assert (forall acc : JsMap RuleGlob RuleConfig, NoDup (map fst (acc ++ es)) ->
            fold_left (fun m '(k, v) => map_set String.eqb k v m) es acc = (acc ++ es)%list)
    as H.
  { induction es as [|[k v] es IH]; intros acc Hnd; simpl; [rewrite app_nil_r; reflexivity|].
    rewrite Hset.
    - rewrite IH; [rewrite <- app_assoc; reflexivity|rewrite <- app_assoc; exact Hnd].
    - rewrite map_app in Hnd; simpl in Hnd.
      apply NoDup_remove_2 in Hnd; intros Hk; apply Hnd, in_or_app; left; exact Hk. }
  intros Hnd; apply (H []); exact Hnd.
Qed.

Lemma map_get_nodup (es : list (RuleGlob * RuleConfig)) g r :
  NoDup (map fst es) -> In (g, r) es -> map_get String.eqb g es = Some r.
Proof.
  induction es as [|[g' r'] es IH]; simpl; [intros _ []|].
  intros Hnd Hin; inversion Hnd as [|? ? Hnotin Hnd']; subst.
  destruct Hin as [Heq|Hin].
  - inversion Heq; subst; rewrite String.eqb_refl; reflexivity.
  - destruct (String.eqb g g') eqn:E; [|apply IH; assumption].
    apply String_eqb_true in E; subst.
    exfalso; apply Hnotin; apply (in_map fst) in Hin; exact Hin.
Qed.

Lemma filter_glob_Forall (L : list InfoLine) g g' :
  Forall (fun l => infoGlob l = g') L ->
  filter (fun l => String.eqb (infoGlob l) g) L = if String.eqb g' g then L else [].
Proof.
  induction 1 as [|l L Hl _ IH]; simpl; [destruct (String.eqb g' g); reflexivity|].
  rewrite Hl, IH; destruct (String.eqb g' g); reflexivity.
Qed.

Lemma applyGroups_group_bounded config ws dry t groups s n g r M :
  NoDup (map fst groups) -> map_get String.eqb g t = Some r ->
  maxPackageUpdates r = CapNum M -> (1 <= M)%Z ->
  (Z.of_nat (glob_count g s) <= M)%Z ->
  (In g (map fst groups) -> glob_count g s = 0%nat) ->
  (Z.of_nat (glob_count g (applyGroups semverMinVersion semverDiff config ws dry t groups s n))
   <= M)%Z.
Proof.
  intros Hnd Ht HM HM1; revert s n; induction groups as [|[g' ups] groups IH];
    intros s n Hle Hz; cbn [applyGroups]; [exact Hle|].
  simpl in Hnd; inversion Hnd as [|? ? Hnotin Hnd']; subst.
  destruct (map_get String.eqb g' t) as [r'|] eqn:Er.
  - destruct (cap_reached (maxRulesApplied config) n); [exact Hle|].
    destruct (applyGroup semverMinVersion semverDiff config ws dry g' r' ups (s, 0%Z))
      as [s' c'] eqn:EG.
    destruct (applyGroup_infos semverMinVersion semverDiff _ _ _ _ _ _ _ _ _ _ EG)
      as [L [HL [HF Hc]]].
    assert (Hcnt : glob_count g s' =
                   (glob_count g s + if String.eqb g' g then length L else 0)%nat).
    { unfold glob_count; rewrite HL, filter_app, length_app, (filter_glob_Forall L g g' HF).
      destruct (String.eqb g' g); reflexivity. }
    destruct (String.eqb g' g) eqn:Eg.
    + apply String_eqb_true in Eg; subst g'.
      rewrite Ht in Er; inversion Er; subst r'.
      pose proof (applyGroup_count_bound semverMinVersion semverDiff config ws dry g r ups
                    s 0%Z s' c' M HM ltac:(lia) ltac:(lia) EG) as Hc'.
      rewrite (Hz (or_introl eq_refl)) in Hcnt.
      apply IH; [exact Hnd'| |intros H; contradiction].
      rewrite Hcnt; lia.
    + rewrite Nat.add_0_r in Hcnt.
      apply IH; [exact Hnd'|rewrite Hcnt; exact Hle|].
      intros H; rewrite Hcnt; apply Hz; right; exact H.
  - apply IH; [exact Hnd'|exact Hle|intros H; apply Hz; right; exact H].
Qed.

(** With a truthy [maxRulesApplied = N >= 1], the info lines, and so the
    changeset entries, come from at most [N] groups. *)
Lemma applyUpdates_groups_bounded config ws dry rwu N :
  maxRulesApplied config = CapNum N -> (1 <= N)%Z ->
  exists gs, (Z.of_nat (length gs) <= N)%Z /\
    forall key rec,
      In (key, rec) (changeset (applyUpdates semverMinVersion semverDiff config ws dry rwu)) ->
      exists l, In l (infos (applyUpdates semverMinVersion semverDiff config ws dry rwu))
                /\ infoIdent l = key /\ In (infoGlob l) gs.
Proof.
  intros HN HN1.
  destruct (applyGroups_groups_bounded config ws dry (map_of_entries String.eqb (rules config))
              rwu (mkApplyState [] (manifest ws) [] []) 0%Z [] N HN ltac:(lia)
              ltac:(simpl; lia) ltac:(lia) ltac:(intros l [])) as [gs [Hlen Hgs]].
  exists gs; split; [exact Hlen|].
  intros key rec Hin.
  destruct (applyUpdates_entries_reported config ws dry rwu key rec Hin) as [l [Hl Hk]].
  exists l; split; [exact Hl|split; [exact Hk|apply Hgs; exact Hl]].
Qed.

(** With distinct rule globs and a candidate map keyed by glob, a rule
    with a truthy [maxPackageUpdates = M >= 1] contributes at most [M]
    info lines, one per changeset entry it applies. *)
Lemma applyUpdates_group_bounded config ws dry rwu g r M :
  NoDup (map fst (rules config)) -> In (g, r) (rules config) ->
  NoDup (map fst rwu) ->
  maxPackageUpdates r = CapNum M -> (1 <= M)%Z ->
  (Z.of_nat (length (filter (fun l => String.eqb (infoGlob l) g)
     (infos (applyUpdates semverMinVersion semverDiff config ws dry rwu)))) <= M)%Z.
Proof.
  intros Hr Hin Hnd HM HM1.
  apply (applyGroups_group_bounded config ws dry _ rwu _ 0%Z g r M Hnd); auto.
  - rewrite map_of_entries_nodup by exact Hr; apply map_get_nodup; assumption.
  - unfold glob_count; simpl; lia.
Qed.
End CapBounds.

(** ** Update Applier: the caps *)

(** C1: [maxRulesApplied = 0] is a number, yet the truthiness
    test [config.maxRulesApplied && ...] lets it through as no limit: both
    groups, [@scope/*] and [other], contribute changeset entries. *)
Theorem applyUpdates_zero_maxRulesApplied :
  let s := fst (pipeline matcher min_version no_diff "npm:" resolverB
                  (cmdA false None) (configB (CapNum 0)) workspaceA) in
  map fst (changeset s) = ["@scope/a"; "@scope/b"; "other"]
  /\ map infoGlob (infos s) = ["@scope/*"; "@scope/*"; "other"].
Proof. vm_compute; split; reflexivity. Qed.

Example applyUpdates_one_maxRulesApplied :
  let s := fst (pipeline matcher min_version no_diff "npm:" resolverB
                  (cmdA false None) (configB (CapNum 1)) workspaceA) in
  map fst (changeset s) = ["@scope/a"; "@scope/b"]
  /\ map infoGlob (infos s) = ["@scope/*"; "@scope/*"].
Proof. vm_compute; split; reflexivity. Qed.

(** C2: [maxPackageUpdates = 0] is a number, yet the truthiness
    test [rule.maxPackageUpdates && ...] lets it through as no limit: the
    rule's group puts two entries in the changeset. *)
Theorem applyUpdates_zero_maxPackageUpdates :
  let s := fst (pipeline matcher min_version no_diff "npm:" resolverA
                  (cmdA false None) (configA (CapNum 0) CapFalse) workspaceA) in
  map fst (changeset s) = ["@scope/a"; "@scope/b"]
  /\ map infoGlob (infos s) = ["@scope/*"; "@scope/*"].
Proof. vm_compute; split; reflexivity. Qed.

(** Two rules with the same glob: the first one gets the bucket, but
    [new Map(config.rules)] hands the loop the last one's cap, so the first
    rule's [maxPackageUpdates = 1] is not applied. *)
Example applyUpdates_duplicate_glob_cap :
  let config := mkConfig [("@scope/*", mkRuleConfig (CapNum 1) true);
                          ("@scope/*", ruleConfigDefaults)] CapFalse false in
  let s := fst (pipeline matcher min_version no_diff "npm:" resolverA
                  (cmdA false None) config workspaceA) in
  map snd (map snd (getRulesWithPackages matcher config manifestA)) = [[sa; sb]; []]
  /\ map fst (changeset s) = ["@scope/a"; "@scope/b"].
Proof. vm_compute; split; reflexivity. Qed.

(** ** Where candidates and entries come from *)

Section Origins.
Variables (micromatch : string -> RuleGlob -> bool)
          (semverMinVersion : string -> option string)
          (semverDiff : string -> string -> option ReleaseType)
          (defaultProtocol : string)
          (fetchDescriptorFrom : Ident -> string -> option Descriptor).

(** Each changeset entry is the record of a candidate whose bound
    descriptor exists and that was not skipped as manifest-only. *)
Lemma applyUpdates_entry_origin config ws dry rwu :
  forall key rec,
    In (key, rec) (changeset (applyUpdates semverMinVersion semverDiff config ws dry rwu)) ->
    exists g ups k d old,
      In (g, ups) rwu /\ In (k, d) ups
      /\ map_get ident_eqb k (wsDependencies ws) = Some old
      /\ key = stringifyIdent (descIdent d)
      /\ rec = record_of semverMinVersion semverDiff ws old d
      /\ manifest_only semverMinVersion ws old d && skipManifestOnlyChanges config = false.
Proof.
  apply (applyUpdates_ind semverMinVersion semverDiff
    (fun s => forall key rec, In (key, rec) (changeset s) ->
       exists g ups k d old,
         In (g, ups) rwu /\ In (k, d) ups
         /\ map_get ident_eqb k (wsDependencies ws) = Some old
         /\ key = stringifyIdent (descIdent d)
         /\ rec = record_of semverMinVersion semverDiff ws old d
         /\ manifest_only semverMinVersion ws old d && skipManifestOnlyChanges config = false)).
  - intros g ups r [k d] s0 c0 s1 c1 Hg Hu _ Hc IH0 key rec Hin.
    apply applyPackage_Continue in Hc;
      destruct Hc as [_ [[-> _]|[old [Hold [Hskip [_ ->]]]]]]; [apply (IH0 key rec Hin)|].
    simpl in Hin; apply (In_map_set String.eqb String_eqb_true) in Hin.
    destruct Hin as [[-> ->]|Hin]; [|apply (IH0 key rec Hin)].
    exists g, ups, k, d, old; repeat split; assumption.
  - intros key rec [].
Qed.

Lemma find_updates_origin rule descriptors pkgs ups qs ups' qs' :
  find_updates defaultProtocol fetchDescriptorFrom rule descriptors pkgs ups qs = (ups', qs') ->
  (exists ext, qs' = (qs ++ ext)%list)
  /\ (forall qq, In qq qs' -> In qq qs \/
        exists pkg old, In pkg pkgs /\ map_get ident_eqb pkg descriptors = Some old
          /\ isSemverProtocol defaultProtocol (range old) = true /\ fst qq = descIdent old)
  /\ (forall k nd, In (k, nd) ups' -> In (k, nd) ups \/
        exists pkg old q, In pkg pkgs /\ map_get ident_eqb pkg descriptors = Some old
          /\ k = descIdent old /\ isSemverProtocol defaultProtocol (range old) = true
          /\ In (descIdent old, q) qs' /\ fetchDescriptorFrom (descIdent old) q = Some nd
          /\ range old <> range nd).
Proof.
  revert ups qs; induction pkgs as [|pkg pkgs IH]; intros ups qs; cbn [find_updates].
  - intros H; inversion H; subst.
    split; [exists []; rewrite app_nil_r; reflexivity|split; intros; left; assumption].
  - (* the three ways the body of the loop goes on *)
    assert (Hskip : forall ups0 qs0,
      (forall k nd, In (k, nd) ups0 -> In (k, nd) ups \/
          exists old q, map_get ident_eqb pkg descriptors = Some old /\ k = descIdent old
            /\ isSemverProtocol defaultProtocol (range old) = true
            /\ In (descIdent old, q) qs0 /\ fetchDescriptorFrom (descIdent old) q = Some nd
            /\ range old <> range nd) ->
      (forall qq, In qq qs0 -> In qq qs \/
          exists old, map_get ident_eqb pkg descriptors = Some old
            /\ isSemverProtocol defaultProtocol (range old) = true /\ fst qq = descIdent old) ->
      (exists ext, qs0 = (qs ++ ext)%list) ->
      find_updates defaultProtocol fetchDescriptorFrom rule descriptors pkgs ups0 qs0
        = (ups', qs') ->
      (exists ext, qs' = (qs ++ ext)%list)
      /\ (forall qq, In qq qs' -> In qq qs \/
            exists pkg0 old, In pkg0 (pkg :: pkgs)
              /\ map_get ident_eqb pkg0 descriptors = Some old
              /\ isSemverProtocol defaultProtocol (range old) = true /\ fst qq = descIdent old)
      /\ (forall k nd, In (k, nd) ups' -> In (k, nd) ups \/
            exists pkg0 old q, In pkg0 (pkg :: pkgs)
              /\ map_get ident_eqb pkg0 descriptors = Some old
              /\ k = descIdent old /\ isSemverProtocol defaultProtocol (range old) = true
              /\ In (descIdent old, q) qs' /\ fetchDescriptorFrom (descIdent old) q = Some nd
              /\ range old <> range nd)).
    { intros ups0 qs0 Hu Hq [ext0 Hext0] H.
      destruct (IH ups0 qs0 H) as [[ext Hext] [Hq' Hu']].
      split; [exists (ext0 ++ ext)%list; rewrite Hext, Hext0, app_assoc; reflexivity|split].
      - intros qq Hin; destruct (Hq' qq Hin) as [Hin0|[p [old [Hp [Ho [Hs Hf]]]]]].
        + destruct (Hq qq Hin0) as [?|[old [Ho [Hs Hf]]]]; [left; assumption|].
          right; exists pkg, old; repeat split; auto; left; reflexivity.
        + right; exists p, old; repeat split; auto; right; assumption.
      - intros k nd Hin; destruct (Hu' k nd Hin) as [Hin0|[p [old [q [Hp [Ho [Hk [Hs [Hq0 [Hf Hr]]]]]]]]]].
        + destruct (Hu k nd Hin0) as [?|[old [q [Ho [Hk [Hs [Hq0 [Hf Hr]]]]]]]]; [left; assumption|].
          right; exists pkg, old, q; repeat split; auto; [left; reflexivity|].
          rewrite Hext; apply in_or_app; left; exact Hq0.
        + right; exists p, old, q; repeat split; auto; right; assumption. }
    destruct (map_get ident_eqb pkg descriptors) as [old|] eqn:Eo.
    + destruct (negb (isSemverProtocol defaultProtocol (range old))) eqn:Es.
      * apply Hskip; [intros; left; assumption|intros; left; assumption|
                      exists []; rewrite app_nil_r; reflexivity].
      * apply negb_false_iff in Es.
        set (q := if preserveSemVerRange rule then range old else "latest").
        assert (Hq : forall qq, In qq (qs ++ [(convertToIdent old, q)])%list -> In qq qs \/
                 exists old0, Some old = Some old0
                   /\ isSemverProtocol defaultProtocol (range old0) = true
                   /\ fst qq = descIdent old0).
        { intros qq Hin; apply in_app_or in Hin; destruct Hin as [?|[<-|[]]]; [left; assumption|].
          right; exists old; repeat split; auto. }
        destruct (fetchDescriptorFrom (convertToIdent old) q) as [nd|] eqn:Ef.
        -- destruct (negb (String.eqb (range old) (range nd))) eqn:Er.
           ++ apply Hskip; [|exact Hq|eexists; reflexivity].
              intros k nd' Hin.
              apply (In_map_set ident_eqb ident_eqb_true) in Hin.
              destruct Hin as [[-> ->]|Hin]; [|left; assumption].
              right; exists old, q; repeat split; auto.
              ** apply in_or_app; right; left; reflexivity.
              ** apply negb_true_iff, String.eqb_neq in Er; exact Er.
           ++ apply Hskip; [intros; left; assumption|exact Hq|eexists; reflexivity].
        -- apply Hskip; [intros; left; assumption|exact Hq|eexists; reflexivity].
    + apply Hskip; [intros; left; assumption|intros; left; assumption|
                    exists []; rewrite app_nil_r; reflexivity].
Qed.
End Origins.

Section GroupOrigins.
Variables (defaultProtocol : string)
          (fetchDescriptorFrom : Ident -> string -> option Descriptor).

Lemma find_groups_origin descriptors rwp : forall groups qs groups' qs',
  find_groups defaultProtocol fetchDescriptorFrom descriptors rwp groups qs = (groups', qs') ->
  (exists ext, qs' = (qs ++ ext)%list)
  /\ (forall qq, In qq qs' -> In qq qs \/
        exists g r pkgs pkg old, In (g, (r, pkgs)) rwp /\ In pkg pkgs
          /\ map_get ident_eqb pkg descriptors = Some old
          /\ isSemverProtocol defaultProtocol (range old) = true /\ fst qq = descIdent old)
  /\ (forall g ups k nd, In (g, ups) groups' -> In (k, nd) ups ->
        (exists ups0, In (g, ups0) groups /\ In (k, nd) ups0) \/
        exists g' r pkgs pkg old q, In (g', (r, pkgs)) rwp /\ In pkg pkgs
          /\ map_get ident_eqb pkg descriptors = Some old
          /\ k = descIdent old /\ isSemverProtocol defaultProtocol (range old) = true
          /\ In (descIdent old, q) qs' /\ fetchDescriptorFrom (descIdent old) q = Some nd
          /\ range old <> range nd).
Proof.
  induction rwp as [|[g0 [r0 pk0]] rest IH]; intros groups qs groups' qs' H;
    cbn [find_groups] in H.
  - inversion H; subst.
    split; [exists []; rewrite app_nil_r; reflexivity|split].
    + intros; left; assumption.
    + intros g ups k nd Hg Hk; left; exists ups; split; assumption.
  - destruct (find_updates defaultProtocol fetchDescriptorFrom r0 descriptors pk0 [] qs)
      as [ups1 qs1] eqn:Ef.
    apply find_updates_origin in Ef; destruct Ef as [[ext1 He1] [Hq1 Hu1]].
    assert (Hrest : forall groups0,
      (forall g ups k nd, In (g, ups) groups0 -> In (k, nd) ups ->
         (exists ups0, In (g, ups0) groups /\ In (k, nd) ups0) \/ (g = g0 /\ In (k, nd) ups1)) ->
      find_groups defaultProtocol fetchDescriptorFrom descriptors rest groups0 qs1 = (groups', qs') ->
      (exists ext, qs' = (qs ++ ext)%list)
      /\ (forall qq, In qq qs' -> In qq qs \/
            exists g r pkgs pkg old, In (g, (r, pkgs)) ((g0, (r0, pk0)) :: rest) /\ In pkg pkgs
              /\ map_get ident_eqb pkg descriptors = Some old
              /\ isSemverProtocol defaultProtocol (range old) = true /\ fst qq = descIdent old)
      /\ (forall g ups k nd, In (g, ups) groups' -> In (k, nd) ups ->
            (exists ups0, In (g, ups0) groups /\ In (k, nd) ups0) \/
            exists g' r pkgs pkg old q, In (g', (r, pkgs)) ((g0, (r0, pk0)) :: rest)
              /\ In pkg pkgs /\ map_get ident_eqb pkg descriptors = Some old
              /\ k = descIdent old /\ isSemverProtocol defaultProtocol (range old) = true
              /\ In (descIdent old, q) qs' /\ fetchDescriptorFrom (descIdent old) q = Some nd
              /\ range old <> range nd)).
    { intros groups0 H0 Hfg.
      destruct (IH _ _ _ _ Hfg) as [[ext2 He2] [Hq2 Hg2]].
      split; [exists (ext1 ++ ext2)%list; rewrite He2, He1, <- app_assoc; reflexivity|split].
      - intros qq Hin.
        destruct (Hq2 qq Hin) as [Hin1|[g [r [pkgs [pkg [old [Hb [Hp [Ho [Hs Hf]]]]]]]]]].
        + destruct (Hq1 qq Hin1) as [?|[pkg [old [Hp [Ho [Hs Hf]]]]]]; [left; assumption|].
          right; exists g0, r0, pk0, pkg, old; repeat split; auto; left; reflexivity.
        + right; exists g, r, pkgs, pkg, old; repeat split; auto; right; assumption.
      - intros g ups k nd Hg Hk.
        destruct (Hg2 g ups k nd Hg Hk)
          as [[ups0 [Hg0 Hk0]]|[g' [r [pkgs [pkg [old [q [Hb [Hp [Ho [Hk' [Hs [Hq [Hf Hr]]]]]]]]]]]]]].
        + destruct (H0 g ups0 k nd Hg0 Hk0) as [?|[-> Hk1]]; [left; assumption|].
          destruct (Hu1 k nd Hk1) as [[]|[pkg [old [q [Hp [Ho [Hk' [Hs [Hq [Hf Hr]]]]]]]]]].
          right; exists g0, r0, pk0, pkg, old, q; repeat split; auto;
            [left; reflexivity|rewrite He2; apply in_or_app; left; assumption].
        + right; exists g', r, pkgs, pkg, old, q; repeat split; auto; right; assumption. }
    destruct ups1 as [|u ups1'].
    + apply (Hrest groups); [|exact H].
      intros g ups k nd Hg Hk; left; exists ups; split; assumption.
    + apply (Hrest (map_set String.eqb g0 (u :: ups1') groups)); [|exact H].
      intros g ups k nd Hg Hk.
      apply (In_map_set String.eqb String_eqb_true) in Hg.
      destruct Hg as [[-> ->]|Hg]; [right; split; auto|left; exists ups; split; assumption].
Qed.

(** Every resolver call is for the ident of an npm descriptor of some
    bucket package, and every candidate is a resolver answer, for such a
    descriptor, whose range differs from the declared one. *)
Lemma findUpdateCandidates_origin m rwp :
  let descriptors := map_of_entries ident_eqb (allDependencies m) in
  (forall qq, In qq (resolverCalls defaultProtocol fetchDescriptorFrom m rwp) ->
     exists g r pkgs pkg old, In (g, (r, pkgs)) rwp /\ In pkg pkgs
       /\ map_get ident_eqb pkg descriptors = Some old
       /\ isSemverProtocol defaultProtocol (range old) = true /\ fst qq = descIdent old)
  /\ (forall g ups k nd, In (g, ups) (candidates defaultProtocol fetchDescriptorFrom m rwp) ->
       In (k, nd) ups ->
       exists g' r pkgs pkg old q, In (g', (r, pkgs)) rwp /\ In pkg pkgs
         /\ map_get ident_eqb pkg descriptors = Some old
         /\ k = descIdent old /\ isSemverProtocol defaultProtocol (range old) = true
         /\ In (descIdent old, q) (resolverCalls defaultProtocol fetchDescriptorFrom m rwp)
         /\ fetchDescriptorFrom (descIdent old) q = Some nd
         /\ range old <> range nd).
Proof.
  intros descriptors; unfold resolverCalls, candidates, findUpdateCandidates.
  fold descriptors.
  destruct (find_groups defaultProtocol fetchDescriptorFrom descriptors rwp [] [])
    as [groups qs] eqn:E; simpl.
  apply find_groups_origin in E; destruct E as [_ [Hq Hg]].
  split.
  - intros qq Hin; destruct (Hq qq Hin) as [[]|?]; assumption.
  - intros g ups k nd Hin Hk; destruct (Hg g ups k nd Hin Hk) as [[? [[] _]]|?]; assumption.
Qed.
End GroupOrigins.

Example scenarioC_candidates :
  map (fun gu => (fst gu, map (fun kd => stringifyIdent (fst kd)) (snd gu)))
    (candidates "npm:" resolverA manifestA
       (getRulesWithPackages matcher (configA (CapNum 1) CapFalse) manifestA))
  = [("@scope/*", ["@scope/a"; "@scope/b"])].
Proof. vm_compute. reflexivity. Qed.

(** C6 (counterexample): the resolver proposes the unsatisfiable range
    [>2.0.0 <1.0.0] for [other]; no version satisfies it ([minVersion] is
    [null]), and the entry's [toVersion] is the range text itself. *)
Lemma toVersion_unsatisfiable_range :
  exists rec,
    map_get String.eqb "other"
      (changeset (fst (pipeline matcher min_version no_diff "npm:" resolverC
                         (cmdA false None) configC workspaceA))) = Some rec
    /\ min_version (toRange rec) = None
    /\ toVersion rec = ">2.0.0 <1.0.0".
Proof.
  vm_compute. eexists. split; [reflexivity|split; reflexivity].
Qed.

(** C6: the [toVersion] of every changeset entry is [minVersion] of its
    [toRange] (the selector of the new range) when semver finds one, and
    the [toRange] itself otherwise. *)
Theorem changeset_toVersion semverMinVersion semverDiff config ws dry rwu key rec :
  In (key, rec) (changeset (applyUpdates semverMinVersion semverDiff config ws dry rwu)) ->
  toVersion rec = match semverMinVersion (toRange rec) with
                  | Some v => v
                  | None => toRange rec
                  end.
Proof.
  intros Hin.
  destruct (applyUpdates_entry_origin semverMinVersion semverDiff config ws dry rwu key rec Hin)
    as [g [ups [k [d [old [_ [_ [_ [_ [-> _]]]]]]]]]].
  reflexivity.
Qed.

Lemma changeset_toVersion_witness :
  let s := applyUpdates min_version no_diff (configA CapFalse CapFalse) workspaceA false
             (candidates "npm:" resolverA manifestA
                (getRulesWithPackages matcher (configA CapFalse CapFalse) manifestA)) in
  let rec := mkChangesetRecord "^1.0.0" "^1.2.0" None "1.2.0" None in
  In ("@scope/a", rec) (changeset s) /\ toVersion rec = "1.2.0".
Proof.
  intros s rec; split.
  - vm_compute; left; reflexivity.
  - rewrite (changeset_toVersion min_version no_diff (configA CapFalse CapFalse) workspaceA false
      (candidates "npm:" resolverA manifestA
         (getRulesWithPackages matcher (configA CapFalse CapFalse) manifestA))
      "@scope/a" rec); [reflexivity|vm_compute; left; reflexivity].
Defined.

(** C5 (counterexample): [other] is declared [^2.0.0] and the resolver
    answers [npm:^2.0.0]; the two range strings differ, so the candidate is
    kept, and the entry's [toRange] is the declared range [^2.0.0]. *)
Lemma toRange_equals_declared_range :
  exists rec,
    map_get String.eqb "other"
      (changeset (fst (pipeline matcher min_version no_diff "npm:" resolverD
                         (cmdA false None) configC workspaceA))) = Some rec
    /\ toRange rec = "^2.0.0" /\ fromRange rec = "^2.0.0".
Proof.
  vm_compute. eexists. split; [reflexivity|split; reflexivity].
Qed.

(** C5: a candidate is the resolver's answer, for the query made for a
    declared npm descriptor, whose full range string differs from the
    declared one; every changeset entry comes from such a candidate, and its
    [toRange] is the selector of that answer's range. *)
Theorem candidates_range_changed micromatch semverMinVersion semverDiff defaultProtocol
    fetchDescriptorFrom cmd config ws :
  let rwp := getRulesWithPackages micromatch config (manifest ws) in
  let descriptors := map_of_entries ident_eqb (allDependencies (manifest ws)) in
  let calls := resolverCalls defaultProtocol fetchDescriptorFrom (manifest ws) rwp in
  (forall g ups k nd,
     In (g, ups) (candidates defaultProtocol fetchDescriptorFrom (manifest ws) rwp) ->
     In (k, nd) ups ->
     exists pkg old q, map_get ident_eqb pkg descriptors = Some old /\ k = descIdent old
       /\ In (descIdent old, q) calls /\ fetchDescriptorFrom (descIdent old) q = Some nd
       /\ range old <> range nd)
  /\ (forall key rec,
     In (key, rec) (changeset (fst (pipeline micromatch semverMinVersion semverDiff
                                      defaultProtocol fetchDescriptorFrom cmd config ws))) ->
     exists pkg old q nd, map_get ident_eqb pkg descriptors = Some old
       /\ In (descIdent old, q) calls /\ fetchDescriptorFrom (descIdent old) q = Some nd
       /\ range old <> range nd /\ key = stringifyIdent (descIdent nd)
       /\ toRange rec = selector (parseRange (range nd))).
Proof.
  intros rwp descriptors calls.
  destruct (findUpdateCandidates_origin defaultProtocol fetchDescriptorFrom (manifest ws) rwp)
    as [_ Hc].
  split.
  - intros g ups k nd Hg Hk.
    destruct (Hc g ups k nd Hg Hk)
      as [g' [r [pkgs [pkg [old [q [_ [_ [Ho [Hk' [_ [Hq [Hf Hr]]]]]]]]]]]]].
    exists pkg, old, q; repeat split; assumption.
  - intros key rec Hin; unfold pipeline in Hin; cbn [fst] in Hin.
    destruct (applyUpdates_entry_origin semverMinVersion semverDiff config ws (dryRun cmd) _
                key rec Hin) as [g [ups [k [d [old' [Hg [Hk [_ [-> [-> _]]]]]]]]]].
    destruct (Hc g ups k d Hg Hk)
      as [g' [r [pkgs [pkg [old [q [_ [_ [Ho [_ [_ [Hq [Hf Hr]]]]]]]]]]]]].
    exists pkg, old, q, d; repeat split; assumption.
Qed.


(** C7: when every declared entry is keyed by its descriptor's ident, a
    package whose (merged) declared descriptor does not use the npm protocol,
    explicit or by default, is never queried, is never a candidate, and no
    changeset entry comes from a candidate for it. *)
Theorem non_npm_descriptor_skipped micromatch semverMinVersion semverDiff defaultProtocol
    fetchDescriptorFrom cmd config ws pkg old :
  (forall k d, In (k, d) (allDependencies (manifest ws)) -> k = descIdent d) ->
  map_get ident_eqb pkg (map_of_entries ident_eqb (allDependencies (manifest ws))) = Some old ->
  isSemverProtocol defaultProtocol (range old) = false ->
  let rwp := getRulesWithPackages micromatch config (manifest ws) in
  (forall q, ~ In (descIdent old, q)
                 (resolverCalls defaultProtocol fetchDescriptorFrom (manifest ws) rwp))
  /\ (forall g ups nd,
        In (g, ups) (candidates defaultProtocol fetchDescriptorFrom (manifest ws) rwp) ->
        ~ In (descIdent old, nd) ups)
  /\ (forall key rec,
        In (key, rec) (changeset (fst (pipeline micromatch semverMinVersion semverDiff
                                         defaultProtocol fetchDescriptorFrom cmd config ws))) ->
        exists g ups k nd,
          In (g, ups) (candidates defaultProtocol fetchDescriptorFrom (manifest ws) rwp)
          /\ In (k, nd) ups /\ k <> descIdent old /\ key = stringifyIdent (descIdent nd)).
Proof.
  intros Hwf Hget Hns rwp.
  assert (Hkey : forall p o,
    map_get ident_eqb p (map_of_entries ident_eqb (allDependencies (manifest ws))) = Some o ->
    p = descIdent o).
  { intros p o Ho; apply Hwf.
    apply (In_map_of_entries ident_eqb ident_eqb_true).
    apply (map_get_In ident_eqb ident_eqb_true); exact Ho. }
  assert (Hne : forall p o,
    map_get ident_eqb p (map_of_entries ident_eqb (allDependencies (manifest ws))) = Some o ->
    isSemverProtocol defaultProtocol (range o) = true -> descIdent old <> descIdent o).
  { intros p o Ho Hs Heq.
    rewrite <- (Hkey p o Ho), <- (Hkey pkg old Hget) in Heq; subst p.
    rewrite Hget in Ho; injection Ho as ->; congruence. }
  destruct (findUpdateCandidates_origin defaultProtocol fetchDescriptorFrom (manifest ws) rwp)
    as [Hq Hc].
  split; [|split].
  - intros q Hin.
    destruct (Hq _ Hin) as [g [r [pkgs [p [o [_ [_ [Ho [Hs Hf]]]]]]]]].
    exact (Hne p o Ho Hs Hf).
  - intros g ups nd Hg Hk.
    destruct (Hc _ _ _ _ Hg Hk) as [g' [r [pkgs [p [o [q [_ [_ [Ho [Hk' [Hs _]]]]]]]]]]].
    exact (Hne p o Ho Hs Hk').
  - intros key rec Hin; unfold pipeline in Hin; cbn [fst] in Hin.
    destruct (applyUpdates_entry_origin semverMinVersion semverDiff config ws (dryRun cmd) _
                key rec Hin) as [g [ups [k [d [o' [Hg [Hk [_ [-> _]]]]]]]]].
    exists g, ups, k, d; split; [exact Hg|split; [exact Hk|split; [|reflexivity]]].
    intros ->.
    destruct (Hc _ _ _ _ Hg Hk) as [g' [r [pkgs [p [o [q [_ [_ [Ho [Hk' [Hs _]]]]]]]]]]].
    exact (Hne p o Ho Hs Hk').
Qed.

Lemma non_npm_descriptor_skipped_witness :
  (forall q, ~ In (descIdent (mkDescriptor other "github:acme/other"), q)
                 (resolverCalls "npm:" resolverB manifestE
                    (getRulesWithPackages matcher (configB CapFalse) manifestE)))
  /\ (forall g ups nd,
        In (g, ups) (candidates "npm:" resolverB manifestE
                       (getRulesWithPackages matcher (configB CapFalse) manifestE)) ->
        ~ In (descIdent (mkDescriptor other "github:acme/other"), nd) ups).
Proof.
  assert (Hwf : forall k d, In (k, d) (allDependencies (manifest workspaceE)) -> k = descIdent d).
  { simpl; intros k d [H|[H|[]]]; inversion H; reflexivity. }
  destruct (non_npm_descriptor_skipped matcher min_version no_diff "npm:" resolverB
              (cmdA false None) (configB CapFalse) workspaceE other
              (mkDescriptor other "github:acme/other") Hwf
              ltac:(vm_compute; reflexivity) ltac:(vm_compute; reflexivity)) as [H1 [H2 _]].
  split; [exact H1|exact H2].
Defined.

(** ** The buckets of [getRulesWithPackages] *)

Lemma In_set_add {A} (eqb : A -> A -> bool) (eqb_true : forall a b, eqb a b = true -> a = b)
    (x y : A) (s : list A) :
  In x (set_add eqb y s) <-> In x s \/ x = y.
Proof.
  unfold set_add; destruct (existsb (eqb y) s) eqn:E.
  - apply existsb_exists in E; destruct E as [z [Hz Hyz]]; apply eqb_true in Hyz; subst z.
    split; [auto|intros [H| ->]; assumption].
  - rewrite in_app_iff; simpl; split; intros [H|H]; auto.
    + destruct H as [H|[]]; auto.
Qed.

Section Buckets.
Variable micromatch : string -> RuleGlob -> bool.

Lemma add_to_first_match_shape s k0 b :
  map bucket_shape (add_to_first_match micromatch s k0 b) = map bucket_shape b.
Proof.
  induction b as [|[g [r p]] rest IH]; simpl; [reflexivity|].
  destruct (micromatch s g); simpl; [reflexivity|rewrite IH; reflexivity].
Qed.

Lemma add_to_first_match_nth s k0 b : forall i g r p',
  nth_error (add_to_first_match micromatch s k0 b) i = Some (g, (r, p')) ->
  exists p, nth_error b i = Some (g, (r, p))
    /\ forall k, In k p' <-> In k p \/
         (k = k0 /\ micromatch s g = true
          /\ forall j g' r' p'', (j < i)%nat -> nth_error b j = Some (g', (r', p'')) ->
               micromatch s g' = false).
Proof.
  induction b as [|[g0 [r0 p0]] rest IH]; intros i g r p' H; simpl in H.
  - destruct i; discriminate.
  - destruct (micromatch s g0) eqn:M; destruct i as [|i]; simpl in H.
    + injection H as <- <- <-; exists p0; split; [reflexivity|].
      intros k; rewrite (In_set_add ident_eqb (fun a b => proj1 (ident_eqb_true a b))).
      split; [intros [H| ->]; [left; assumption|right; repeat split; auto; intros; lia]|].
      intros [H|[-> _]]; auto.
    + exists p'; split; [exact H|intros k; split; [left; assumption|]].
      intros [H'|[_ [_ Hb]]]; [assumption|].
      rewrite (Hb 0%nat g0 r0 p0 ltac:(lia) eq_refl) in M; discriminate.
    + injection H as <- <- <-; exists p0; split; [reflexivity|].
      intros k; split; [left; assumption|intros [H|[_ [Hm _]]]; [assumption|congruence]].
    + destruct (IH i g r p' H) as [p [Hp Hiff]]; exists p; split; [exact Hp|].
      intros k; rewrite Hiff; split; intros [H'|[Hk [Hm Hb]]]; auto; right;
        repeat split; auto.
      * intros [|j] g' r' p'' Hj Hn; simpl in Hn;
          [injection Hn as <- _ _; exact M|apply (Hb j g' r' p''); [lia|exact Hn]].
      * intros j g' r' p'' Hj Hn; apply (Hb (S j) g' r' p''); [lia|exact Hn].
Qed.

Lemma nth_error_shape (b : RulesWithPackages) rs j g r :
  map bucket_shape b = rs ->
  nth_error rs j = Some (g, r) <-> exists p, nth_error b j = Some (g, (r, p)).
Proof.
  intros <-; rewrite nth_error_map.
  destruct (nth_error b j) as [[g' [r' p']]|]; simpl; split.
  - intros H; injection H as -> ->; exists p'; reflexivity.
  - intros [p H]; injection H as -> -> ->; reflexivity.
  - discriminate.
  - intros [p H]; discriminate.
Qed.

Lemma getRulesWithPackages_buckets config m :
  let rwp := getRulesWithPackages micromatch config m in
  map bucket_shape rwp = rules config
  /\ forall i g r pkgs, nth_error rwp i = Some (g, (r, pkgs)) ->
     forall k, In k pkgs <-> exists d, In (k, d) (allDependencies m)
       /\ micromatch (stringifyIdent (descIdent d)) g = true
       /\ forall j g' r', (j < i)%nat -> nth_error (rules config) j = Some (g', r') ->
            micromatch (stringifyIdent (descIdent d)) g' = false.
Proof.
  unfold getRulesWithPackages.
  set (rs := rules config).
  assert (Hfold : forall es processed (b : RulesWithPackages),
    map bucket_shape b = rs ->
    (forall i g r pkgs, nth_error b i = Some (g, (r, pkgs)) ->
     forall k, In k pkgs <-> exists d, In (k, d) processed
       /\ micromatch (stringifyIdent (descIdent d)) g = true
       /\ forall j g' r', (j < i)%nat -> nth_error rs j = Some (g', r') ->
            micromatch (stringifyIdent (descIdent d)) g' = false) ->
    let b' := fold_left (fun buckets '(identHash, descriptor) =>
                add_to_first_match micromatch (stringifyIdent (descIdent descriptor))
                  identHash buckets) es b in
    map bucket_shape b' = rs
    /\ forall i g r pkgs, nth_error b' i = Some (g, (r, pkgs)) ->
       forall k, In k pkgs <-> exists d, In (k, d) (processed ++ es)%list
         /\ micromatch (stringifyIdent (descIdent d)) g = true
         /\ forall j g' r', (j < i)%nat -> nth_error rs j = Some (g', r') ->
              micromatch (stringifyIdent (descIdent d)) g' = false).
  { induction es as [|[k0 d0] es IH]; intros processed b Hs Hb; simpl.
    - rewrite app_nil_r; split; assumption.
    - replace (processed ++ (k0, d0) :: es)%list with ((processed ++ [(k0, d0)]) ++ es)%list
        by (rewrite <- app_assoc; reflexivity).
      apply IH; [rewrite add_to_first_match_shape; exact Hs|].
      intros i g r p' Hn k.
      destruct (add_to_first_match_nth _ _ _ _ _ _ _ Hn) as [p [Hp Hiff]].
      rewrite Hiff, (Hb i g r p Hp k).
      split.
      + intros [[d [Hd Hm]]|[-> [Hm Hbefore]]].
        * exists d; split; [apply in_or_app; left; exact Hd|exact Hm].
        * exists d0; split; [apply in_or_app; right; left; reflexivity|split; [exact Hm|]].
          intros j g' r' Hj Hr.
          apply (nth_error_shape b rs j g' r' Hs) in Hr; destruct Hr as [p'' Hr].
          exact (Hbefore j g' r' p'' Hj Hr).
      + intros [d [Hd Hm]]; apply in_app_or in Hd; destruct Hd as [Hd|[Hd|[]]].
        * left; exists d; split; assumption.
        * injection Hd as <- <-; right; split; [reflexivity|split; [apply Hm|]].
          intros j g' r' p'' Hj Hr; apply (proj2 Hm j g' r' Hj).
          apply (nth_error_shape b rs j g' r' Hs); exists p''; exact Hr. }
  cbv zeta.
  apply (Hfold (allDependencies m) []
           (map (fun '(ruleGlob, rule) => (ruleGlob, (rule, []))) rs)).
  - clear Hfold; induction rs as [|[g r] rest IH]; simpl; [reflexivity|].
    rewrite IH; reflexivity.
  - intros i g r pkgs Hn k.
    rewrite nth_error_map in Hn.
    destruct (nth_error rs i) as [[g' r']|]; simpl in Hn; [|discriminate].
    injection Hn as _ _ <-; split; [intros []|intros [d [[] _]]].
Qed.
End Buckets.

(** C3: the i-th bucket of [getRulesWithPackages] is the i-th rule, and it
    holds exactly the declared idents (dependencies then devDependencies)
    whose stringified ident the i-th glob matches and no earlier glob does.
    When every declared entry is keyed by its descriptor's ident, an ident
    is in at most one bucket, and a dependency that no glob matches is in
    none. *)
Theorem getRulesWithPackages_first_match micromatch config m :
  let rwp := getRulesWithPackages micromatch config m in
  (forall i g r pkgs, nth_error rwp i = Some (g, (r, pkgs)) ->
     nth_error (rules config) i = Some (g, r)
     /\ forall k, In k pkgs <-> exists d, In (k, d) (allDependencies m)
          /\ micromatch (stringifyIdent (descIdent d)) g = true
          /\ forall j g' r', (j < i)%nat -> nth_error (rules config) j = Some (g', r') ->
               micromatch (stringifyIdent (descIdent d)) g' = false)
  /\ ((forall k d, In (k, d) (allDependencies m) -> k = descIdent d) ->
      (forall i j gi ri pi gj rj pj k,
         nth_error rwp i = Some (gi, (ri, pi)) -> nth_error rwp j = Some (gj, (rj, pj)) ->
         In k pi -> In k pj -> i = j)
      /\ (forall k d, In (k, d) (allDependencies m) ->
            (forall g r, In (g, r) (rules config) ->
               micromatch (stringifyIdent (descIdent d)) g = false) ->
            forall i g r pkgs, nth_error rwp i = Some (g, (r, pkgs)) -> ~ In k pkgs)).
Proof.
  intros rwp.
  destruct (getRulesWithPackages_buckets micromatch config m) as [Hs Hb].
  fold rwp in Hs, Hb.
  assert (Hr : forall i g r pkgs, nth_error rwp i = Some (g, (r, pkgs)) ->
                 nth_error (rules config) i = Some (g, r)).
  { intros i g r pkgs Hn; apply (nth_error_shape rwp (rules config) i g r Hs).
    exists pkgs; exact Hn. }
  split; [intros i g r pkgs Hn; split; [exact (Hr i g r pkgs Hn)|exact (Hb i g r pkgs Hn)]|].
  intros Hwf; split.
  - intros i j gi ri pi gj rj pj k Hi Hj Hki Hkj.
    destruct (proj1 (Hb i gi ri pi Hi k) Hki) as [di [Hdi [Hmi Hbi]]].
    destruct (proj1 (Hb j gj rj pj Hj k) Hkj) as [dj [Hdj [Hmj Hbj]]].
    assert (Hd : descIdent di = descIdent dj)
      by (rewrite <- (Hwf k di Hdi), <- (Hwf k dj Hdj); reflexivity).
    destruct (Nat.lt_trichotomy i j) as [Hlt|[Heq|Hgt]]; [|exact Heq|].
    + rewrite Hd, (Hbj i gi ri Hlt (Hr i gi ri pi Hi)) in Hmi; discriminate.
    + rewrite Hd in Hbi.
      rewrite (Hbi j gj rj Hgt (Hr j gj rj pj Hj)) in Hmj; discriminate.
  - intros k d Hd Hnone i g r pkgs Hn Hk.
    destruct (proj1 (Hb i g r pkgs Hn k) Hk) as [d' [Hd' [Hm _]]].
    rewrite <- (Hwf k d' Hd'), (Hwf k d Hd) in Hm.
    rewrite (Hnone g r (nth_error_In _ _ (Hr i g r pkgs Hn))) in Hm; discriminate.
Qed.

(** ** Manifest-only candidates *)

Section ManifestOnly.
Variables (semverMinVersion : string -> option string)
          (semverDiff : string -> string -> option ReleaseType)
          (config : Config) (ws : Workspace) (isDryRun : bool).

Lemma applyPackage_cap_reached ruleGlob rule st u :
  cap_reached (maxPackageUpdates rule) (snd st) = true ->
  applyPackage semverMinVersion semverDiff config ws isDryRun ruleGlob rule st u = Break st.
Proof.
  destruct st as [s c], u as [k d]; simpl; intros Hc; unfold applyPackage; rewrite Hc;
    reflexivity.
Qed.

Lemma applyGroup_cap_reached ruleGlob rule updates st :
  cap_reached (maxPackageUpdates rule) (snd st) = true ->
  applyGroup semverMinVersion semverDiff config ws isDryRun ruleGlob rule updates st = st.
Proof.
  destruct updates as [|u rest]; intros Hc; cbn [applyGroup]; [reflexivity|].
  rewrite applyPackage_cap_reached by exact Hc; reflexivity.
Qed.

Variables (k : IdentHash) (d old : Descriptor).
Hypothesis Hold : map_get ident_eqb k (wsDependencies ws) = Some old.
Hypothesis Hsame : manifest_only semverMinVersion ws old d = true.

Lemma applyPackage_manifest_only_skip ruleGlob rule s c :
  skipManifestOnlyChanges config = true ->
  cap_reached (maxPackageUpdates rule) c = false ->
  applyPackage semverMinVersion semverDiff config ws isDryRun ruleGlob rule (s, c) (k, d)
  = Continue (s, c).
Proof.
  intros Hskip Hc; unfold applyPackage; rewrite Hc, Hold.
  unfold manifest_only in Hsame; cbv zeta; rewrite Hsame, Hskip; reflexivity.
Qed.

Lemma applyGroup_manifest_only_skip ruleGlob rule pre post :
  skipManifestOnlyChanges config = true ->
  forall st,
    applyGroup semverMinVersion semverDiff config ws isDryRun ruleGlob rule
      (pre ++ (k, d) :: post) st
    = applyGroup semverMinVersion semverDiff config ws isDryRun ruleGlob rule
        (pre ++ post) st.
Proof.
  intros Hskip; induction pre as [|u pre IH]; intros [s c]; cbn [app applyGroup].
  - destruct (cap_reached (maxPackageUpdates rule) c) eqn:Ec.
    + rewrite applyPackage_cap_reached by exact Ec.
      symmetry; apply applyGroup_cap_reached; exact Ec.
    + rewrite applyPackage_manifest_only_skip by assumption; reflexivity.
  - destruct (applyPackage semverMinVersion semverDiff config ws isDryRun ruleGlob rule
                (s, c) u); [reflexivity|apply IH].
Qed.

Lemma applyGroups_manifest_only_skip globToRule G1 g pre post G2 :
  skipManifestOnlyChanges config = true ->
  forall s n,
    applyGroups semverMinVersion semverDiff config ws isDryRun globToRule
      (G1 ++ (g, pre ++ (k, d) :: post) :: G2)%list s n
    = applyGroups semverMinVersion semverDiff config ws isDryRun globToRule
        (G1 ++ (g, pre ++ post) :: G2)%list s n.
Proof.
  intros Hskip; induction G1 as [|[g1 ups1] G1 IH]; intros s n; cbn [app applyGroups].
  - destruct (map_get String.eqb g globToRule) as [rule|]; [|reflexivity].
    destruct (cap_reached (maxRulesApplied config) n); [reflexivity|].
    rewrite applyGroup_manifest_only_skip by exact Hskip; reflexivity.
  - destruct (map_get String.eqb g1 globToRule) as [rule|]; [|apply IH].
    destruct (cap_reached (maxRulesApplied config) n); [reflexivity|].
    destruct (applyGroup semverMinVersion semverDiff config ws isDryRun g1 rule ups1 (s, 0%Z));
      apply IH.
Qed.
End ManifestOnly.

(** * Further properties of the plugin *)

(** ** More on [Map.prototype.set] *)

Section MapFacts2.
Context {K V : Type} (keq : K -> K -> bool)
        (keq_true : forall a b, keq a b = true <-> a = b).

Lemma map_get_map_set (k k0 : K) (v : V) (m : JsMap K V) :
  map_get keq k (map_set keq k0 v m) = if keq k k0 then Some v else map_get keq k m.
Proof.
  induction m as [|[k' v'] m IH]; simpl.
  - destruct (keq k k0); reflexivity.
  - destruct (keq k0 k') eqn:E0; simpl.
    + apply keq_true in E0; subst k'.
      destruct (keq k k0); reflexivity.
    + destruct (keq k k') eqn:E1; [|exact IH].
      apply keq_true in E1; subst k'.
      destruct (keq k k0) eqn:E2; [|reflexivity].
      apply keq_true in E2; subst k0.
      assert (keq k k = true) by (apply keq_true; reflexivity); congruence.
Qed.

Lemma In_keys_map_set (x k : K) (v : V) (m : JsMap K V) :
  In x (map fst (map_set keq k v m)) <-> x = k \/ In x (map fst m).
Proof.
  induction m as [|[k' v'] m IH]; simpl.
  - split; [intros [->|[]]; auto|intros [->|[]]; auto].
  - destruct (keq k k') eqn:E; simpl.
    + apply keq_true in E; subst k'; split; [intros [->|H]; auto|intros [->|[->|H]]; auto].
    + rewrite IH; split; intros [H|[H|H]]; auto.
Qed.

Lemma map_set_nodup (k : K) (v : V) (m : JsMap K V) :
  NoDup (map fst m) -> NoDup (map fst (map_set keq k v m)).
Proof.
  induction m as [|[k' v'] m IH]; simpl; intros Hnd.
  - constructor; [intros []|constructor].
  - inversion Hnd as [|? ? Hn Hnd']; subst.
    destruct (keq k k') eqn:E; simpl; [exact Hnd|].
    constructor; [|exact (IH Hnd')].
    rewrite In_keys_map_set; intros [Heq|Hin]; [|contradiction].
    subst k'; assert (keq k k = true) by (apply keq_true; reflexivity); congruence.
Qed.

(** Setting a key the map has keeps its keys, in their order. *)
Lemma map_set_keys_has (k : K) (v : V) (m : JsMap K V) :
  map_has keq k m = true -> map fst (map_set keq k v m) = map fst m.
Proof.
  unfold map_has; induction m as [|[k' v'] m IH]; simpl; [discriminate|].
  destruct (keq k k') eqn:E; simpl; [reflexivity|].
  intros H; rewrite (IH H); reflexivity.
Qed.
End MapFacts2.

(** ** The state [applyUpdates] builds *)

Section RunFacts.
Variables (semverMinVersion : string -> option string)
          (semverDiff : string -> string -> option ReleaseType).

Lemma set_in_scopes_get (k0 : IdentHash) (d : Descriptor) (m : Manifest) sk k :
  map_get ident_eqb k (getForScope sk (set_in_scopes k0 d m))
  = if ident_eqb k k0 && map_has ident_eqb k0 (getForScope sk m) then Some d
    else map_get ident_eqb k (getForScope sk m).
Proof.
  destruct m as [deps devs]; unfold set_in_scopes; simpl.
  unfold set_in_scope at 2; unfold set_in_scope; simpl.
  destruct sk; simpl.
  - destruct (map_has ident_eqb k0 deps) eqn:Hd; simpl.
    + destruct (map_has ident_eqb k0 devs); simpl;
        rewrite (map_get_map_set ident_eqb ident_eqb_true); rewrite andb_true_r; reflexivity.
    + destruct (map_has ident_eqb k0 devs); simpl; rewrite andb_false_r; reflexivity.
  - destruct (map_has ident_eqb k0 deps) eqn:Hd; simpl;
      destruct (map_has ident_eqb k0 devs) eqn:Hv; simpl;
      try (rewrite (map_get_map_set ident_eqb ident_eqb_true); rewrite andb_true_r);
      try rewrite andb_false_r; reflexivity.
Qed.

Lemma set_in_scopes_keys (k0 : IdentHash) (d : Descriptor) (m : Manifest) sk :
  map fst (getForScope sk (set_in_scopes k0 d m)) = map fst (getForScope sk m).
Proof.
  destruct m as [deps devs]; unfold set_in_scopes; simpl.
  unfold set_in_scope at 2; unfold set_in_scope; simpl.
  destruct (map_has ident_eqb k0 deps) eqn:Hd; simpl;
    destruct (map_has ident_eqb k0 devs) eqn:Hv; simpl; destruct sk; simpl;
    try reflexivity; apply (map_set_keys_has ident_eqb); assumption.
Qed.

(** The run never adds or removes a dependency of either scope, nor
    reorders them; the descriptor of a dependency is either the declared
    one or the descriptor of one of its update candidates. *)
Lemma applyUpdates_manifest_frame config ws dry rwu sk :
  let m' := stManifest (applyUpdates semverMinVersion semverDiff config ws dry rwu) in
  map fst (getForScope sk m') = map fst (getForScope sk (manifest ws))
  /\ forall k, map_get ident_eqb k (getForScope sk m')
               = map_get ident_eqb k (getForScope sk (manifest ws))
             \/ exists g ups d, In (g, ups) rwu /\ In (k, d) ups
                  /\ map_get ident_eqb k (getForScope sk m') = Some d.
Proof.
  apply (applyUpdates_ind semverMinVersion semverDiff
    (fun s => map fst (getForScope sk (stManifest s)) = map fst (getForScope sk (manifest ws))
      /\ forall k, map_get ident_eqb k (getForScope sk (stManifest s))
                   = map_get ident_eqb k (getForScope sk (manifest ws))
                 \/ exists g ups d, In (g, ups) rwu /\ In (k, d) ups
                      /\ map_get ident_eqb k (getForScope sk (stManifest s)) = Some d));
    [|split; [reflexivity|intros; left; reflexivity]].
  intros g ups r [k0 d0] s0 c0 s1 c1 Hg Hu _ Hc [Hkeys Hvals].
  apply applyPackage_Continue in Hc;
    destruct Hc as [_ [[-> _]|[old [_ [_ [_ ->]]]]]]; [split; assumption|]; simpl.
  split; [rewrite set_in_scopes_keys; exact Hkeys|].
  intros k; rewrite set_in_scopes_get.
  destruct (ident_eqb k k0 && map_has ident_eqb k0 (getForScope sk (stManifest s0))) eqn:E.
  - apply andb_true_iff in E; destruct E as [E _]; apply ident_eqb_true in E; subst k0.
    right; exists g, ups, d0; repeat split; assumption.
  - apply Hvals.
Qed.

(** A group whose glob is not the glob of a configured rule is skipped
    without effect: the run is the same as on the candidate map without
    it. *)
Lemma applyUpdates_unknown_globs config ws dry rwu :
  applyUpdates semverMinVersion semverDiff config ws dry rwu
  = applyUpdates semverMinVersion semverDiff config ws dry
      (filter (fun gu => map_has String.eqb (fst gu) (map_of_entries String.eqb (rules config)))
         rwu).
Proof.
  unfold applyUpdates.
  generalize (mkApplyState [] (manifest ws) [] []) 0%Z.
  induction rwu as [|[g ups] rest IH]; intros s n; [reflexivity|].
  cbn [filter fst]; unfold map_has at 1.
  destruct (map_get String.eqb g (map_of_entries String.eqb (rules config))) as [r|] eqn:E;
    cbn [applyGroups]; rewrite E; [|apply IH].
  destruct (cap_reached (maxRulesApplied config) n); [reflexivity|].
  destruct (applyGroup semverMinVersion semverDiff config ws dry g r ups (s, 0%Z)); apply IH.
Qed.

(** In a real run, [forgetResolution] is called once per reported update,
    on the workspace-bound descriptor whose range gave the reported
    [fromRange]. *)
Lemma applyUpdates_forgotten config ws rwu :
  let s := applyUpdates semverMinVersion semverDiff config ws false rwu in
  map (fun d => selector (parseRange (range d))) (forgotten s) = map infoFrom (infos s)
  /\ forall d, In d (forgotten s) -> exists k, map_get ident_eqb k (wsDependencies ws) = Some d.
Proof.
  apply (applyUpdates_ind semverMinVersion semverDiff
    (fun s => map (fun d => selector (parseRange (range d))) (forgotten s) = map infoFrom (infos s)
       /\ forall d, In d (forgotten s) -> exists k, map_get ident_eqb k (wsDependencies ws) = Some d));
    [|split; [reflexivity|intros d []]].
  intros g ups r [k0 d0] s0 c0 s1 c1 _ _ _ Hc [Hmap Hin].
  apply applyPackage_Continue in Hc;
    destruct Hc as [_ [[-> _]|[old [Hold [_ [_ ->]]]]]]; [split; assumption|]; simpl.
  split.
  - rewrite !map_app, Hmap; reflexivity.
  - intros d Hd; apply in_app_or in Hd; destruct Hd as [Hd|[<-|[]]]; [exact (Hin d Hd)|].
    exists k0; exact Hold.
Qed.
End RunFacts.

(** ** Dry and real runs stage the same updates *)

Section DryRun.
Variables (semverMinVersion : string -> option string)
          (semverDiff : string -> string -> option ReleaseType).

Lemma applyPackage_dry_view config ws g r s1 s2 c u dry1 dry2 :
  changeset s1 = changeset s2 -> stManifest s1 = stManifest s2 -> infos s1 = infos s2 ->
  let view := fun (f : Flow (ApplyState * Z)) =>
    match f with
    | Break (s, n) => (false, changeset s, stManifest s, infos s, n)
    | Continue (s, n) => (true, changeset s, stManifest s, infos s, n)
    end in
  view (applyPackage semverMinVersion semverDiff config ws dry1 g r (s1, c) u)
  = view (applyPackage semverMinVersion semverDiff config ws dry2 g r (s2, c) u).
Proof.
  destruct s1 as [cs1 m1 f1 i1], s2 as [cs2 m2 f2 i2]; simpl; intros -> -> ->.
  destruct u as [k d]; unfold applyPackage.
  destruct (cap_reached (maxPackageUpdates r) c); [reflexivity|].
  destruct (map_get ident_eqb k (wsDependencies ws)) as [old|]; [|reflexivity].
  cbv zeta.
  destruct (same_version (getInstalledVersion old (project ws))
              (extractVersionFromRange semverMinVersion (selector (parseRange (range d))))
            && skipManifestOnlyChanges config); reflexivity.
Qed.

Lemma applyGroup_dry_view config ws g r ups : forall s1 s2 c dry1 dry2,
  changeset s1 = changeset s2 -> stManifest s1 = stManifest s2 -> infos s1 = infos s2 ->
  let a := applyGroup semverMinVersion semverDiff config ws dry1 g r ups (s1, c) in
  let b := applyGroup semverMinVersion semverDiff config ws dry2 g r ups (s2, c) in
  changeset (fst a) = changeset (fst b) /\ stManifest (fst a) = stManifest (fst b)
  /\ infos (fst a) = infos (fst b) /\ snd a = snd b.
Proof.
  induction ups as [|u rest IH]; intros s1 s2 c dry1 dry2 H1 H2 H3; cbv zeta; cbn [applyGroup];
    [simpl; repeat split; assumption|].
  pose proof (applyPackage_dry_view config ws g r s1 s2 c u dry1 dry2 H1 H2 H3) as H;
    cbv beta zeta in H.
  destruct (applyPackage semverMinVersion semverDiff config ws dry1 g r (s1, c) u)
    as [[a ca]|[a ca]], (applyPackage semverMinVersion semverDiff config ws dry2 g r (s2, c) u)
    as [[b cb]|[b cb]]; simpl in H |- *; try discriminate H; injection H.
  - intros; subst; repeat split; congruence.
  - intros; subst; apply IH; congruence.
Qed.

Lemma applyGroups_dry_view config ws t groups : forall s1 s2 n dry1 dry2,
  changeset s1 = changeset s2 -> stManifest s1 = stManifest s2 -> infos s1 = infos s2 ->
  let a := applyGroups semverMinVersion semverDiff config ws dry1 t groups s1 n in
  let b := applyGroups semverMinVersion semverDiff config ws dry2 t groups s2 n in
  changeset a = changeset b /\ stManifest a = stManifest b /\ infos a = infos b.
Proof.
  induction groups as [|[g ups] rest IH]; intros s1 s2 n dry1 dry2 H1 H2 H3; cbv zeta;
    cbn [applyGroups];
    [repeat split; assumption|].
  destruct (map_get String.eqb g t) as [r|]; [|apply IH; assumption].
  destruct (cap_reached (maxRulesApplied config) n); [repeat split; assumption|].
  destruct (applyGroup_dry_view config ws g r ups s1 s2 0%Z dry1 dry2 H1 H2 H3)
    as [G1 [G2 [G3 G4]]].
  destruct (applyGroup semverMinVersion semverDiff config ws dry1 g r ups (s1, 0%Z)) as [a ca],
           (applyGroup semverMinVersion semverDiff config ws dry2 g r ups (s2, 0%Z)) as [b cb].
  simpl in *; subst cb; apply IH; assumption.
Qed.

(** A dry run stages exactly the changeset, manifest changes and info lines
    of a real run on the same input; only the forgotten resolutions
    differ. *)
Lemma applyUpdates_dry_same config ws rwu :
  let d := applyUpdates semverMinVersion semverDiff config ws true rwu in
  let r := applyUpdates semverMinVersion semverDiff config ws false rwu in
  changeset d = changeset r /\ stManifest d = stManifest r /\ infos d = infos r.
Proof.
  unfold applyUpdates; apply applyGroups_dry_view; reflexivity.
Qed.
End DryRun.

(** ** The candidate map and the resolver queries *)

Section CandidateFacts.
Variables (defaultProtocol : string)
          (fetchDescriptorFrom : Ident -> string -> option Descriptor).

Lemma find_updates_nodup rule descriptors pkgs : forall ups qs,
  NoDup (map fst ups) ->
  NoDup (map fst (fst (find_updates defaultProtocol fetchDescriptorFrom rule descriptors
                         pkgs ups qs))).
Proof.
  induction pkgs as [|pkg rest IH]; intros ups qs Hnd; cbn [find_updates]; [exact Hnd|].
  destruct (map_get ident_eqb pkg descriptors) as [old|]; [|apply IH; exact Hnd].
  destruct (negb (isSemverProtocol defaultProtocol (range old))); [apply IH; exact Hnd|].
  cbv zeta.
  destruct (fetchDescriptorFrom (convertToIdent old)
              (if preserveSemVerRange rule then range old else "latest")) as [nd|];
    [|apply IH; exact Hnd].
  destruct (negb (String.eqb (range old) (range nd))); apply IH; [|exact Hnd].
  apply (map_set_nodup ident_eqb ident_eqb_true); exact Hnd.
Qed.

Lemma find_groups_shape descriptors rwp : forall groups qs,
  NoDup (map fst groups) ->
  (forall g ups, In (g, ups) groups -> ups <> [] /\ NoDup (map fst ups)) ->
  let groups' := fst (find_groups defaultProtocol fetchDescriptorFrom descriptors rwp groups qs) in
  NoDup (map fst groups')
  /\ forall g ups, In (g, ups) groups' -> ups <> [] /\ NoDup (map fst ups).
Proof.
  induction rwp as [|[g0 [r0 pk0]] rest IH]; intros groups qs Hnd Hg; cbv zeta;
    cbn [find_groups]; [split; assumption|].
  pose proof (find_updates_nodup r0 descriptors pk0 [] qs (NoDup_nil _)) as Hu.
  destruct (find_updates defaultProtocol fetchDescriptorFrom r0 descriptors pk0 [] qs)
    as [ups1 qs1]; simpl in Hu.
  destruct ups1 as [|u ups1']; apply IH.
  - exact Hnd.
  - exact Hg.
  - apply (map_set_nodup String.eqb String_eqb_true); exact Hnd.
  - intros g ups Hin; apply (In_map_set String.eqb String_eqb_true) in Hin.
    destruct Hin as [[-> ->]|Hin]; [split; [discriminate|exact Hu]|exact (Hg g ups Hin)].
Qed.

(** The candidate map has at most one group per glob, no empty group, and
    at most one candidate per package in a group. *)
Lemma candidates_shape m rwp :
  let cs := candidates defaultProtocol fetchDescriptorFrom m rwp in
  NoDup (map fst cs) /\ forall g ups, In (g, ups) cs -> ups <> [] /\ NoDup (map fst ups).
Proof.
  apply find_groups_shape; [constructor|intros g ups []].
Qed.

Lemma find_updates_queries rule descriptors pkgs : forall ups qs,
  snd (find_updates defaultProtocol fetchDescriptorFrom rule descriptors pkgs ups qs)
  = (qs ++ flat_map (fun pkg =>
         match map_get ident_eqb pkg descriptors with
         | Some old =>
             if isSemverProtocol defaultProtocol (range old)
             then [(convertToIdent old,
                    if preserveSemVerRange rule then range old else "latest")]
             else []
         | None => []
         end) pkgs)%list.
Proof.
  induction pkgs as [|pkg rest IH]; intros ups qs; cbn [find_updates flat_map];
    [rewrite app_nil_r; reflexivity|].
  destruct (map_get ident_eqb pkg descriptors) as [old|]; [|apply IH].
  destruct (isSemverProtocol defaultProtocol (range old)); cbn [negb]; [|apply IH].
  cbv zeta.
  destruct (fetchDescriptorFrom (convertToIdent old)
              (if preserveSemVerRange rule then range old else "latest")) as [nd|];
    [destruct (negb (String.eqb (range old) (range nd)))|];
    rewrite IH, <- app_assoc; reflexivity.
Qed.

Lemma find_groups_queries descriptors rwp : forall groups qs,
  snd (find_groups defaultProtocol fetchDescriptorFrom descriptors rwp groups qs)
  = (qs ++ flat_map (fun '(ruleGlob, (rule, packages)) =>
      flat_map (fun pkg =>
        match map_get ident_eqb pkg descriptors with
        | Some old =>
            if isSemverProtocol defaultProtocol (range old)
            then [(convertToIdent old,
                   if preserveSemVerRange rule then range old else "latest")]
            else []
        | None => []
        end) packages) rwp)%list.
Proof.
  induction rwp as [|[g0 [r0 pk0]] rest IH]; intros groups qs; cbn [find_groups flat_map];
    [rewrite app_nil_r; reflexivity|].
  pose proof (find_updates_queries r0 descriptors pk0 [] qs) as Hq.
  destruct (find_updates defaultProtocol fetchDescriptorFrom r0 descriptors pk0 [] qs)
    as [ups1 qs1]; simpl in Hq; subst qs1.
  destruct ups1; rewrite IH, app_assoc; reflexivity.
Qed.

(** [findUpdateCandidates] queries the resolver once for each package of
    each bucket, in bucket order, whose declared descriptor uses the npm
    protocol: with the declared range when the rule preserves the semver
    range, and with ['latest'] otherwise. *)
Lemma resolverCalls_spec m rwp :
  let descriptors := map_of_entries ident_eqb (allDependencies m) in
  resolverCalls defaultProtocol fetchDescriptorFrom m rwp
  = flat_map (fun '(ruleGlob, (rule, packages)) =>
      flat_map (fun pkg =>
        match map_get ident_eqb pkg descriptors with
        | Some old =>
            if isSemverProtocol defaultProtocol (range old)
            then [(convertToIdent old,
                   if preserveSemVerRange rule then range old else "latest")]
            else []
        | None => []
        end) packages) rwp.
Proof.
  intros descriptors; unfold resolverCalls, findUpdateCandidates; fold descriptors.
  rewrite find_groups_queries; reflexivity.
Qed.
End CandidateFacts.

(** ** Which ranges count as npm *)

Lemma split_protocol_none (r : string) :
  ~ In ":"%char (list_ascii_of_string r) -> split_protocol r = None.
Proof.
  induction r as [|c r IH]; simpl; intros Hc; [reflexivity|].
  destruct (Ascii.eqb c ":"%char) eqn:E1.
  - apply Ascii.eqb_eq in E1; subst c; exfalso; apply Hc; left; reflexivity.
  - destruct (Ascii.eqb c "#"%char); [reflexivity|].
    rewrite IH; [reflexivity|intros H; apply Hc; right; exact H].
Qed.

Lemma split_protocol_prefix (p x : string) :
  ~ In ":"%char (list_ascii_of_string p) -> ~ In "#"%char (list_ascii_of_string p) ->
  split_protocol (p ++ ":" ++ x) = Some (p, x).
Proof.
  induction p as [|c p IH]; simpl in *; intros Hc Hh; [reflexivity|].
  destruct (Ascii.eqb c ":"%char) eqn:E1;
    [apply Ascii.eqb_eq in E1; subst c; exfalso; apply Hc; left; reflexivity|].
  destruct (Ascii.eqb c "#"%char) eqn:E2;
    [apply Ascii.eqb_eq in E2; subst c; exfalso; apply Hh; left; reflexivity|].
  rewrite IH; [reflexivity|intros H; apply Hc; right; exact H|intros H; apply Hh; right; exact H].
Qed.

Lemma append_colon_inj (p q : string) : p ++ ":" = q ++ ":" -> p = q.
Proof.
  revert q; induction p as [|c p IH]; intros [|c' q]; simpl; intros H;
    try reflexivity; injection H; intros H1 H2.
  - destruct q; discriminate H1.
  - destruct p; discriminate H1.
  - subst c'; f_equal; apply IH; exact H1.
Qed.

Lemma append_colon_eqb (p q : string) :
  String.eqb (p ++ ":") (q ++ ":") = String.eqb p q.
Proof.
  destruct (String.eqb p q) eqn:E.
  - apply String.eqb_eq in E; subst q; apply String.eqb_refl.
  - apply not_true_iff_false; intros H; apply String.eqb_eq, append_colon_inj in H.
    subst q; rewrite String.eqb_refl in E; discriminate.
Qed.

(** A range with an explicit protocol [p:] (no [:] or [#] inside [p]) counts
    as semver exactly when [p] is [npm], whatever the default protocol. *)
Lemma isSemverProtocol_explicit (defaultProtocol p x : string) :
  ~ In ":"%char (list_ascii_of_string p) -> ~ In "#"%char (list_ascii_of_string p) ->
  isSemverProtocol defaultProtocol (p ++ ":" ++ x) = String.eqb p "npm".
Proof.
  intros Hc Hh; unfold isSemverProtocol, parseRange.
  rewrite (split_protocol_prefix p x Hc Hh).
  destruct (split_params x) as [main prms].
  destruct (split_hash main) as [a [sel|]]; simpl;
    exact (append_colon_eqb p "npm").
Qed.

Lemma isSemverProtocol_explicit_witness :
  isSemverProtocol "npm:" "github:acme/pkg" = false
  /\ isSemverProtocol "git:" "npm:^1.0.0" = true.
Proof.
  split.
  - exact (isSemverProtocol_explicit "npm:" "github" "acme/pkg"
             ltac:(simpl; intuition discriminate) ltac:(simpl; intuition discriminate)).
  - exact (isSemverProtocol_explicit "git:" "npm" "^1.0.0"
             ltac:(simpl; intuition discriminate) ltac:(simpl; intuition discriminate)).
Defined.

(** A range with no [:] at all counts as semver exactly when the default
    protocol is [npm:]. *)
Lemma isSemverProtocol_bare (defaultProtocol r : string) :
  ~ In ":"%char (list_ascii_of_string r) ->
  isSemverProtocol defaultProtocol r = String.eqb defaultProtocol "npm:".
Proof.
  intros Hc; unfold isSemverProtocol, parseRange.
  rewrite (split_protocol_none r Hc).
  destruct (split_params r) as [main prms].
  destruct (split_hash main) as [a [sel|]]; simpl; apply orb_false_r.
Qed.

Lemma isSemverProtocol_bare_witness :
  isSemverProtocol "npm:" "^1.2.3" = true /\ isSemverProtocol "git:" "^1.2.3" = false.
Proof.
  split.
  - exact (isSemverProtocol_bare "npm:" "^1.2.3" ltac:(simpl; intuition discriminate)).
  - exact (isSemverProtocol_bare "git:" "^1.2.3" ltac:(simpl; intuition discriminate)).
Defined.

(** ** Without caps every bound candidate is applied *)

Lemma map_of_entries_get_some (g : string) {V} (es : list (string * V)) :
  In g (map fst es) -> exists v, map_get String.eqb g (map_of_entries String.eqb es) = Some v.
Proof.
  unfold map_of_entries.
  assert (H : forall acc, (In g (map fst es) \/ In g (map fst acc)) ->
    In g (map fst (fold_left (fun m '(k0, v0) => map_set String.eqb k0 v0 m) es acc))).
  { induction es as [|[k v] es IH]; simpl; intros acc Hg.
    - destruct Hg as [[]|Hg]; exact Hg.
    - apply IH; rewrite (In_keys_map_set String.eqb String_eqb_true).
      destruct Hg as [[->|Hg]|Hg]; auto. }
  intros Hg; specialize (H [] (or_introl Hg)).
  generalize dependent (fold_left (fun m '(k0, v0) => map_set String.eqb k0 v0 m) es []).
  intros m Hm; induction m as [|[k v] m IH]; simpl in *; [destruct Hm|].
  destruct (String.eqb g k) eqn:E; [eauto|].
  destruct Hm as [->|Hm]; [rewrite String.eqb_refl in E; discriminate|auto].
Qed.

Section Uncapped.
Variables (semverMinVersion : string -> option string)
          (semverDiff : string -> string -> option ReleaseType).

Lemma applyPackage_keeps_mark line key config ws dry g r s0 c0 u s1 c1 :
  applyPackage semverMinVersion semverDiff config ws dry g r (s0, c0) u = Continue (s1, c1) ->
  applied_mark line key s0 -> applied_mark line key s1.
Proof.
  destruct u as [k d]; intros H [Hl Hk].
  apply applyPackage_Continue in H.
  destruct H as [_ [[-> _]|[old [_ [_ [_ ->]]]]]]; [split; assumption|].
  split; simpl.
  - apply in_or_app; left; exact Hl.
  - apply (In_keys_map_set String.eqb String_eqb_true); right; exact Hk.
Qed.

Lemma applyGroup_applies config ws dry g r ups st k d old :
  cap_truthy (maxPackageUpdates r) = false ->
  skipManifestOnlyChanges config = false ->
  In (k, d) ups ->
  map_get ident_eqb k (wsDependencies ws) = Some old ->
  applied_mark
    (mkInfoLine g (stringifyIdent (descIdent d))
       (selector (parseRange (range old))) (selector (parseRange (range d))))
    (stringifyIdent (descIdent d))
    (fst (applyGroup semverMinVersion semverDiff config ws dry g r ups st)).
Proof.
  intros Hcap Hskip Hin Hold; revert st.
  induction ups as [|u ups IH]; intros [s c]; [destruct Hin|].
  cbn [applyGroup].
  destruct (applyPackage semverMinVersion semverDiff config ws dry g r (s, c) u)
    as [st'|[s1 c1]] eqn:E.
  - apply applyPackage_Break in E; destruct E as [_ E].
    unfold cap_reached in E; rewrite Hcap in E; discriminate.
  - destruct Hin as [->|Hin]; [|apply IH; exact Hin].
    apply (applyGroup_ind semverMinVersion semverDiff); [intros; eapply applyPackage_keeps_mark; eauto|].
    simpl; unfold applyPackage in E.
    unfold cap_reached in E; rewrite Hcap in E; cbv beta iota zeta in E.
    rewrite Hold, Hskip, andb_false_r in E.
    injection E; intros _ <-; split; simpl.
    + apply in_or_app; right; left; reflexivity.
    + apply (In_keys_map_set String.eqb String_eqb_true); left; reflexivity.
Qed.

Lemma applyGroups_applies config ws dry t groups s n g ups r k d old :
  cap_truthy (maxRulesApplied config) = false ->
  skipManifestOnlyChanges config = false ->
  (forall g' r', map_get String.eqb g' t = Some r' -> cap_truthy (maxPackageUpdates r') = false) ->
  In (g, ups) groups -> map_get String.eqb g t = Some r ->
  In (k, d) ups ->
  map_get ident_eqb k (wsDependencies ws) = Some old ->
  applied_mark
    (mkInfoLine g (stringifyIdent (descIdent d))
       (selector (parseRange (range old))) (selector (parseRange (range d))))
    (stringifyIdent (descIdent d))
    (applyGroups semverMinVersion semverDiff config ws dry t groups s n).
Proof.
  intros Hrc Hskip Hcaps Hg Hr Hk Hold; revert s n.
  induction groups as [|[g' ups'] groups IH]; intros s n; [destruct Hg|].
  cbn [applyGroups].
  destruct Hg as [Heq|Hg].
  - injection Heq; intros -> ->; rewrite Hr.
    unfold cap_reached at 1; rewrite Hrc; cbv beta iota.
    pose proof (applyGroup_applies config ws dry g r ups (s, 0%Z) k d old
                  (Hcaps g r Hr) Hskip Hk Hold) as HA.
    destruct (applyGroup semverMinVersion semverDiff config ws dry g r ups (s, 0%Z)) as [s' c'].
    apply (applyGroups_ind semverMinVersion semverDiff);
      [intros; eapply applyPackage_keeps_mark; eauto|exact HA].
  - destruct (map_get String.eqb g' t) as [r'|]; [|apply IH; exact Hg].
    unfold cap_reached at 1; rewrite Hrc; cbv beta iota.
    destruct (applyGroup semverMinVersion semverDiff config ws dry g' r' ups' (s, 0%Z)) as [s' c'].
    apply IH; exact Hg.
Qed.

End Uncapped.

(** With no truthy cap anywhere ([false] or [0]) and
    [skipManifestOnlyChanges] off, every candidate of a configured glob whose
    identity the workspace binds is applied: its info line is reported and
    its package name is a key of the changeset. *)
Lemma applyUpdates_uncapped_applies_all semverMinVersion semverDiff config ws dry rwu
    g ups k d old :
  cap_truthy (maxRulesApplied config) = false ->
  skipManifestOnlyChanges config = false ->
  (forall g' r', In (g', r') (rules config) -> cap_truthy (maxPackageUpdates r') = false) ->
  In (g, ups) rwu -> In g (map fst (rules config)) ->
  In (k, d) ups ->
  map_get ident_eqb k (wsDependencies ws) = Some old ->
  let s := applyUpdates semverMinVersion semverDiff config ws dry rwu in
  In (mkInfoLine g (stringifyIdent (descIdent d))
        (selector (parseRange (range old))) (selector (parseRange (range d))))
     (infos s)
  /\ In (stringifyIdent (descIdent d)) (map fst (changeset s)).
Proof.
  intros Hrc Hskip Hcaps Hg Hgr Hk Hold s.
  destruct (map_of_entries_get_some g (rules config) Hgr) as [r Hr].
  apply (applyGroups_applies semverMinVersion semverDiff config ws dry _ rwu _ _ g ups r k d old);
    auto.
  intros g' r' H; apply (Hcaps g').
  apply (In_map_of_entries String.eqb String_eqb_true), (map_get_In String.eqb String_eqb_true); exact H.
Qed.

Lemma applyUpdates_uncapped_applies_all_witness :
  let s := applyUpdates min_version no_diff (configA (CapNum 0) CapFalse) workspaceA false
             [("@scope/*", [dep sa "^1.2.0"; dep sb "^1.1.0"])] in
  In (mkInfoLine "@scope/*" "@scope/b" "^1.0.0" "^1.1.0") (infos s)
  /\ In "@scope/b" (map fst (changeset s)).
Proof.
  exact (applyUpdates_uncapped_applies_all min_version no_diff (configA (CapNum 0) CapFalse)
           workspaceA false [("@scope/*", [dep sa "^1.2.0"; dep sb "^1.1.0"])]
           "@scope/*" [dep sa "^1.2.0"; dep sb "^1.1.0"] sb (mkDescriptor sb "^1.1.0")
           (mkDescriptor sb "^1.0.0")
           eq_refl eq_refl
           (fun g' r' H => match H with
                           | or_introl E => eq_sym (f_equal (fun gr => cap_truthy (maxPackageUpdates (snd gr))) E)
                           | or_intror F => match F with end
                           end)
           (or_introl eq_refl) (or_introl eq_refl) (or_intror (or_introl eq_refl)) eq_refl).
Defined.

(** ** Manifest-only candidates in a whole run *)

Section Reach.
Variables (semverMinVersion : string -> option string)
          (semverDiff : string -> string -> option ReleaseType).

Lemma applyPackage_applies config ws dry g r s c k d old :
  cap_reached (maxPackageUpdates r) c = false ->
  skipManifestOnlyChanges config = false ->
  map_get ident_eqb k (wsDependencies ws) = Some old ->
  exists s', applyPackage semverMinVersion semverDiff config ws dry g r (s, c) (k, d)
             = Continue (s', (c + 1)%Z)
    /\ applied_mark
         (mkInfoLine g (stringifyIdent (descIdent d))
            (selector (parseRange (range old))) (selector (parseRange (range d))))
         (stringifyIdent (descIdent d)) s'.
Proof.
  intros Hc Hskip Hold; unfold applyPackage; rewrite Hc; cbv beta iota zeta.
  rewrite Hold, Hskip, andb_false_r.
  eexists; split; [reflexivity|split; simpl].
  - apply in_or_app; right; left; reflexivity.
  - apply (In_keys_map_set String.eqb String_eqb_true); left; reflexivity.
Qed.

Lemma applyGroup_reaches config ws dry g r k d old post :
  skipManifestOnlyChanges config = false ->
  map_get ident_eqb k (wsDependencies ws) = Some old ->
  forall pre s c,
    (forall c', (c <= c' <= c + Z.of_nat (length pre))%Z ->
                cap_reached (maxPackageUpdates r) c' = false) ->
    applied_mark
      (mkInfoLine g (stringifyIdent (descIdent d))
         (selector (parseRange (range old))) (selector (parseRange (range d))))
      (stringifyIdent (descIdent d))
      (fst (applyGroup semverMinVersion semverDiff config ws dry g r
              (pre ++ (k, d) :: post) (s, c))).
Proof.
  intros Hskip Hold pre; induction pre as [|[k' d'] pre IH]; intros s c Hc;
    cbn [app applyGroup].
  - destruct (applyPackage_applies config ws dry g r s c k d old
                (Hc c ltac:(simpl; lia)) Hskip Hold) as [s' [E M]].
    rewrite E.
    apply (applyGroup_ind semverMinVersion semverDiff);
      [intros; eapply applyPackage_keeps_mark; eauto|exact M].
  - destruct (applyPackage semverMinVersion semverDiff config ws dry g r (s, c) (k', d'))
      as [st'|[s1 c1]] eqn:E.
    + apply applyPackage_Break in E; destruct E as [_ E].
      rewrite (Hc c ltac:(simpl length; lia)) in E; discriminate.
    + apply applyPackage_Continue in E.
      destruct E as [_ [[_ ->]|[old' [_ [_ [-> _]]]]]];
        apply IH; intros c' Hc'; apply Hc; simpl length; lia.
Qed.

Lemma applyGroups_reaches config ws dry t g r k d old pre post G2 :
  skipManifestOnlyChanges config = false ->
  map_get ident_eqb k (wsDependencies ws) = Some old ->
  map_get String.eqb g t = Some r ->
  (forall c, (0 <= c <= Z.of_nat (length pre))%Z ->
             cap_reached (maxPackageUpdates r) c = false) ->
  forall G1 s n,
    (forall n', (n <= n' <= n + Z.of_nat (length G1))%Z ->
                cap_reached (maxRulesApplied config) n' = false) ->
    applied_mark
      (mkInfoLine g (stringifyIdent (descIdent d))
         (selector (parseRange (range old))) (selector (parseRange (range d))))
      (stringifyIdent (descIdent d))
      (applyGroups semverMinVersion semverDiff config ws dry t
         (G1 ++ (g, pre ++ (k, d) :: post) :: G2)%list s n).
Proof.
  intros Hskip Hold Ht Hpc G1; induction G1 as [|[g1 ups1] G1 IH]; intros s n Hn;
    cbn [app applyGroups].
  - rewrite Ht, (Hn n ltac:(simpl; lia)); cbv beta iota.
    pose proof (applyGroup_reaches config ws dry g r k d old post Hskip Hold pre s 0%Z
                  (fun c' H => Hpc c' ltac:(lia))) as HA.
    destruct (applyGroup semverMinVersion semverDiff config ws dry g r
                (pre ++ (k, d) :: post) (s, 0%Z)) as [s' c'].
    apply (applyGroups_ind semverMinVersion semverDiff);
      [intros; eapply applyPackage_keeps_mark; eauto|exact HA].
  - destruct (map_get String.eqb g1 t) as [r1|].
    + rewrite (Hn n ltac:(simpl length; lia)); cbv beta iota.
      destruct (applyGroup semverMinVersion semverDiff config ws dry g1 r1 ups1 (s, 0%Z))
        as [s' c'].
      apply IH; intros n' Hn'; apply Hn; simpl length.
      destruct (negb (c' =? 0)%Z); lia.
    + apply IH; intros n' Hn'; apply Hn; simpl length; lia.
Qed.

End Reach.

(** C4: let [d] be a candidate for [k] whose computed [fromVersion] (the
    installed version of the bound descriptor [old]) equals its computed
    [toVersion].  With [skipManifestOnlyChanges] on, dropping [d] from its
    group changes nothing in the run: no entry, no manifest change, no
    forgotten resolution, no info line, and no count toward either cap.
    With it off, the same candidate is applied and appears in the
    changeset: whenever neither cap can stop the loop before it (the
    applied-group count is at most the number of groups before [d]'s group,
    and the group's count at most the number of candidates before [d]),
    its info line is reported and its package name is a key of the
    changeset. *)
Theorem manifest_only_candidates semverMinVersion semverDiff config ws isDryRun k d old :
  map_get ident_eqb k (wsDependencies ws) = Some old ->
  manifest_only semverMinVersion ws old d = true ->
  (skipManifestOnlyChanges config = true ->
   forall G1 g pre post G2,
     applyUpdates semverMinVersion semverDiff config ws isDryRun
       (G1 ++ (g, pre ++ (k, d) :: post) :: G2)%list
     = applyUpdates semverMinVersion semverDiff config ws isDryRun
         (G1 ++ (g, pre ++ post) :: G2)%list)
  /\ (skipManifestOnlyChanges config = false ->
      forall G1 g r pre post G2,
        map_get String.eqb g (map_of_entries String.eqb (rules config)) = Some r ->
        (forall n, (0 <= n <= Z.of_nat (length G1))%Z ->
                   cap_reached (maxRulesApplied config) n = false) ->
        (forall c, (0 <= c <= Z.of_nat (length pre))%Z ->
                   cap_reached (maxPackageUpdates r) c = false) ->
        let s := applyUpdates semverMinVersion semverDiff config ws isDryRun
                   (G1 ++ (g, pre ++ (k, d) :: post) :: G2)%list in
        In (stringifyIdent (descIdent d)) (map fst (changeset s))
        /\ In (mkInfoLine g (stringifyIdent (descIdent d))
                (selector (parseRange (range old))) (selector (parseRange (range d))))
              (infos s)).
Proof.
  intros Hold Hsame; split.
  - intros Hskip G1 g pre post G2; unfold applyUpdates.
    apply (applyGroups_manifest_only_skip semverMinVersion semverDiff config ws isDryRun
             k d old Hold Hsame); exact Hskip.
  - intros Hskip G1 g r pre post G2 Hr Hn Hc s.
    destruct (applyGroups_reaches semverMinVersion semverDiff config ws isDryRun _ g r k d old
                pre post G2 Hskip Hold Hr Hc G1 (mkApplyState [] (manifest ws) [] []) 0%Z
                (fun n' H => Hn n' ltac:(lia))) as [Hi Hk].
    split; [exact Hk|exact Hi].
Qed.

Lemma manifest_only_candidates_witness :
  applyUpdates min_version no_diff (configS true) workspaceC false
    [("@scope/*", [(sa, mkDescriptor sa "^1.2.0"); (sb, mkDescriptor sb "^1.1.0")])]
  = applyUpdates min_version no_diff (configS true) workspaceC false
      [("@scope/*", [(sb, mkDescriptor sb "^1.1.0")])]
  /\ In "@scope/b"
       (map fst (changeset (applyUpdates min_version no_diff (configS false) workspaceC false
          [("@scope/*", [(sb, mkDescriptor sb "^1.1.0"); (sa, mkDescriptor sa "^1.2.0")])]))).
Proof.
  split.
  - exact (proj1 (manifest_only_candidates min_version no_diff (configS true) workspaceC false
                    sa (mkDescriptor sa "^1.2.0") (mkDescriptor sa "^1.0.0")
                    ltac:(vm_compute; reflexivity) ltac:(vm_compute; reflexivity))
             eq_refl [] "@scope/*" [] [(sb, mkDescriptor sb "^1.1.0")] []).
  - exact (proj1 (proj2 (manifest_only_candidates min_version no_diff (configS false) workspaceC
                    false sb (mkDescriptor sb "^1.1.0") (mkDescriptor sb "^1.0.0")
                    ltac:(vm_compute; reflexivity) ltac:(vm_compute; reflexivity))
             eq_refl [] "@scope/*" (mkRuleConfig (CapNum 1) true) []
             [(sa, mkDescriptor sa "^1.2.0")] [] ltac:(vm_compute; reflexivity)
             (fun n H => ltac:(vm_compute; reflexivity))
             (fun c H => ltac:(simpl in H; assert (c = 0%Z) as -> by lia; vm_compute; reflexivity)))).
Defined.
